(** * Fourier visualizer: the numeric core of [src/App.jsx]

    A shallow embedding of the waveform model, the sampler, the series
    evaluator, the coordinate mapper, the interaction state and the equation
    formatter of the widget, with the properties its specification states.

    Number model.  A JavaScript number is read as a real number: [+], [-],
    [*], [/] are the field operations of [R], [Math.PI] is [PI], [Math.sin] is
    [sin], comparisons are the order of [R].  The integer-valued library
    functions ([%], [Math.round], [Number.prototype.toFixed]) are written
    out from their ECMAScript definitions on top of the integer part of a
    real.  A statement about these definitions is a statement of exact real
    arithmetic: the tick loop adds 0.5 without rounding, [sin] vanishes at
    every multiple of pi, and [toFixed] prints the exact value.  Where
    rounding decides, the waveform evaluators are given a second time on
    binary64 numbers, in the module [B64]. *)

From Stdlib Require Import Reals Lra Lia ZArith List String Ascii Bool.
From Stdlib Require Import Machin DecimalString.
From Stdlib Require Floats.
Import ListNotations.

Open Scope R_scope.

(** ** JavaScript number primitives over [R] *)

Module JS.

(** [Math.floor]. *)
Definition floor (x : R) : Z := Int_part x.

(** Truncation toward zero, the quotient used by [%]. *)
Definition trunc (x : R) : Z :=
  if Rle_dec 0 x then floor x else (- floor (- x))%Z.

(** [x % m]: the remainder has the sign of the dividend. *)
Definition rem (x m : R) : R := x - m * IZR (trunc (x / m)).

(** [Math.round]: the nearest integer, ties toward plus infinity. *)
Definition round (x : R) : Z := floor (x + / 2).

(** [Math.abs], [Math.min], [Math.max]. *)
Definition abs (x : R) : R := Rabs x.
Definition min (x y : R) : R := Rmin x y.
Definition max (x y : R) : R := Rmax x y.

(** Comparisons as booleans. *)
Definition ltb (x y : R) : bool := if Rlt_dec x y then true else false.
Definition leb (x y : R) : bool := if Rle_dec x y then true else false.
Definition gtb (x y : R) : bool := ltb y x.
Definition eqb (x y : R) : bool := if Req_dec_T x y then true else false.

(** [Math.pow(b, k)] at an integer exponent. *)
Definition pow (b : R) (k : Z) : R := powerRZ b k.

End JS.

(** ** Waveform model (WAVE_TYPES) *)

Inductive waveKey : Type := square | sawtooth | triangle.

(** The phase reduction shared by the three evaluators:
    [((x % (2 * Math.PI)) + 2 * Math.PI) % (2 * Math.PI)]. *)
Definition phase (x : R) : R :=
  JS.rem (JS.rem x (2 * PI) + 2 * PI) (2 * PI).

(** [WAVE_TYPES[key].coefficients(n)], at an integer harmonic [n].
    [n % 2] is the truncated remainder [Z.rem]; in the triangle branch
    [k = (n - 1) / 2] is only reached at odd [n], where the division is
    exact. *)
Definition coefficients (w : waveKey) (n : Z) : R :=
  match w with
  | square =>
      if Z.eqb (Z.rem n 2) 1 then 4 / (PI * IZR n) else 0
  | sawtooth =>
      (2 / (PI * IZR n)) * JS.pow (-1) (n + 1)
  | triangle =>
      if Z.eqb (Z.rem n 2) 0 then 0
      else
        let k := ((n - 1) / 2)%Z in
        (8 / (PI * PI * IZR n * IZR n)) * JS.pow (-1) k
  end.

(** [WAVE_TYPES[key].fn(x)]. *)
Definition fn (w : waveKey) (x : R) : R :=
  match w with
  | square =>
      if JS.ltb (phase x) PI then 1 else -1
  | sawtooth =>
      let p := phase x in
      p / PI - 1
  | triangle =>
      let p := phase x in
      if JS.ltb p (PI / 2) then (2 * p) / PI
      else if JS.ltb p ((3 * PI) / 2) then 2 - (2 * p) / PI
      else (2 * p) / PI - 4
  end.

(** ** Number formatting *)

Module Fmt.

Open Scope string_scope.

(** Decimal digits of a natural number, as a template literal prints an
    integer-valued number. *)
Definition ofNat (n : nat) : string := NilZero.string_of_uint (Nat.to_uint n).

(** Decimal digits of a non-negative integer. *)
Definition ofZ (n : Z) : string := ofNat (Z.to_nat n).

Fixpoint zeros (k : nat) : string :=
  match k with
  | O => ""
  | S k' => String "0" (zeros k')
  end.

(** [String.prototype.substring] restricted to a prefix and the matching
    suffix. *)
Fixpoint take (k : nat) (s : string) : string :=
  match k, s with
  | S k', String c s' => String c (take k' s')
  | _, _ => ""
  end.

Fixpoint drop (k : nat) (s : string) : string :=
  match k, s with
  | S k', String _ s' => drop k' s'
  | _, _ => s
  end.

(** The digit string of [Number.prototype.toFixed] for the integer [n]
    (the value scaled by [10^f]): left-padded with zeros to [f + 1] digits,
    with the decimal point before the last [f] digits. *)
Definition fixedDigits (n : Z) (f : nat) : string :=
  let m := if Z.eqb n 0 then "0" else ofZ n in
  match f with
  | O => m
  | S _ =>
      let k := String.length m in
      let m' := if Nat.leb k f then zeros (f + 1 - k) ++ m else m in
      let k' := String.length m' in
      take (k' - f) m' ++ "." ++ drop (k' - f) m'
  end.

(** [x.toFixed(f)] for [|x| < 10^21]: the integer [n] with [n / 10^f]
    nearest to [|x|], the larger one on a tie, printed by [fixedDigits]
    behind the sign of [x]. *)
Definition toFixed (x : R) (f : nat) : string :=
  let s := if JS.ltb x 0 then "-" else "" in
  let x' := if JS.ltb x 0 then (- x)%R else x in
  let n := JS.floor (x' * 10 ^ f + / 2)%R in
  s ++ fixedDigits n f.

End Fmt.

(** ** Sampler *)

Definition NUM_POINTS : nat := 500.

(** [generateXValues()]: the loop [for (i = 0; i <= NUM_POINTS; i++)]
    pushing [(i / NUM_POINTS) * 2 * Math.PI]. *)
Definition generateXValues : list R :=
  map (fun i : nat => (INR i / INR NUM_POINTS) * 2 * PI)
      (seq 0 (S NUM_POINTS)).

Definition X_VALUES : list R := generateXValues.

(** The i-th abscissa of the uniform grid over one period, in closed form:
    (i / 500) 2 pi. *)
Definition gridPoint (i : nat) : R := (INR i / 500) * (2 * PI).

(** ** Array helpers *)

(** [arr.map((v, i) => f(v, i))], the index starting at [i]. *)
Fixpoint mapi_from {A B : Type} (f : A -> nat -> B) (i : nat) (l : list A)
  : list B :=
  match l with
  | [] => []
  | v :: rest => f v i :: mapi_from f (S i) rest
  end.

Definition mapi {A B : Type} (f : A -> nat -> B) (l : list A) : list B :=
  mapi_from f 0 l.

(** [arr.filter(Boolean)] on an array of objects and [null]s. *)
Fixpoint filterBoolean {A : Type} (l : list (option A)) : list A :=
  match l with
  | [] => []
  | Some v :: rest => v :: filterBoolean rest
  | None :: rest => filterBoolean rest
  end.

(** ** Chart data *)

(** A sample [{ x, y }]. *)
Definition Point : Type := (R * R)%type.

(** A dataset object; a field the literal leaves out is [None]
    ([undefined]), an array read out of range is [None] too. *)
Record Dataset : Type := mkDataset {
  ds_color : option string;
  ds_width : option R;
  ds_opacity : option R;
  ds_dash : option string;
  ds_data : list Point
}.

Record LegendItem : Type := mkLegendItem {
  li_color : option string;
  li_label : string
}.

Definition COLORS : list string :=
  ["#E63946"; "#457B9D"; "#2A9D8F"; "#E76F51"; "#7B2D8E"]%string.

(** ** Coordinate mapper and chart renderer (Graph) *)

Module Graph.

Record Padding : Type := mkPadding {
  top : R; right : R; bottom : R; left : R
}.

Definition padding : Padding :=
  {| top := 40; right := 24; bottom := 44; left := 52 |}.

(** One step of the path of a dataset: the command letter and the mapped
    point, before the coordinates are printed with [toFixed(1)]. *)
Inductive PathCmd : Type :=
| M (sx sy : R)
| L (sx sy : R).

Section Props.

(** The props of one chart: its size and [yRange = [yMin, yMax]]. *)
Variables (width height yMin yMax : R).

Definition plotW : R := width - left padding - right padding.
Definition plotH : R := height - top padding - bottom padding.

Definition toSVGX (x : R) : R := left padding + (x / (2 * PI)) * plotW.
Definition toSVGY (y : R) : R :=
  top padding + ((yMax - y) / (yMax - yMin)) * plotH.

Definition xTicks : list R := [0; PI / 2; PI; (3 * PI) / 2; 2 * PI].
Definition xLabels : list string := ["0"; "π/2"; "π"; "3π/2"; "2π"]%string.

(** The loop [for (let v = yMin; v <= yMax; v += 0.5)] pushing
    [Math.round(v * 10) / 10], run for at most [fuel] iterations. *)
Fixpoint yTicks_loop (fuel : nat) (v : R) : list R :=
  match fuel with
  | O => []
  | S fuel' =>
      if JS.leb v yMax
      then IZR (JS.round (v * 10)) / 10 :: yTicks_loop fuel' (v + 0.5)
      else []
  end.

(** Iterations after which the loop guard has failed: one more than the
    number of 0.5 steps that fit between [yMin] and [yMax]. *)
Definition yTicks_fuel : nat := S (Z.to_nat (JS.floor ((yMax - yMin) * 2) + 1)).

Definition yTicks : list R := yTicks_loop yTicks_fuel yMin.

(** Vertical gridlines: the pixel column of each x tick. *)
Definition xGridLines : list R := map toSVGX xTicks.

(** Horizontal gridlines: the pixel row of each y tick. *)
Definition yGridLines : list R := map toSVGY yTicks.

(** The zero axis. *)
Definition zeroAxis : R := toSVGY 0.

(** X-axis labels: [xLabels[i]] under the i-th x tick. *)
Definition xAxisLabels : list (R * option string) :=
  mapi (fun xv i => (toSVGX xv, nth_error xLabels i)) xTicks.

(** Y-axis labels: the ticks with [v === Math.round(v)]. *)
Definition yLabelTicks : list R :=
  filter (fun v => JS.eqb v (IZR (JS.round v))) yTicks.

(** The point of a data line: [pt.y] is clamped into the range before it is
    mapped. *)
Definition dataPoint (pt : Point) : R * R :=
  let sx := toSVGX (fst pt) in
  let sy := toSVGY (JS.max yMin (JS.min yMax (snd pt))) in
  (sx, sy).

Definition pathCmds (data : list Point) : list PathCmd :=
  mapi (fun pt i =>
          let '(sx, sy) := dataPoint pt in
          if Nat.eqb i 0 then M sx sy else L sx sy) data.

(** The [d] attribute: the commands joined by a space. *)
Definition cmdString (c : PathCmd) : string :=
  match c with
  | M sx sy => "M" ++ Fmt.toFixed sx 1 ++ "," ++ Fmt.toFixed sy 1
  | L sx sy => "L" ++ Fmt.toFixed sx 1 ++ "," ++ Fmt.toFixed sy 1
  end%string.

(** The data lines: a dataset with no data renders nothing. *)
Definition dataLines (datasets : list Dataset) : list (option string) :=
  map (fun ds =>
         match ds_data ds with
         | [] => None
         | _ => Some (String.concat " " (map cmdString (pathCmds (ds_data ds))))
         end) datasets.

End Props.

End Graph.

(** ** Interaction state (FourierVisualizer) *)

Record State : Type := mkState {
  amplitudes : list R;
  waveType : waveKey;
  containerWidth : R
}.

Definition initialState : State :=
  {| amplitudes := [0; 0; 0; 0; 0]; waveType := square; containerWidth := 800 |}.

Definition setAmplitudes (next : list R) (s : State) : State :=
  {| amplitudes := next; waveType := waveType s;
     containerWidth := containerWidth s |}.

Definition setWaveType (key : waveKey) (s : State) : State :=
  {| amplitudes := amplitudes s; waveType := key;
     containerWidth := containerWidth s |}.

Definition resetAll (s : State) : State := setAmplitudes [0; 0; 0; 0; 0] s.

(** The amplitude [showIdeal] stores for harmonic [n]:
    [Math.round(Math.min(2, Math.max(-2, c)) * 1000) / 1000]. *)
Definition idealAmplitude (w : waveKey) (n : Z) : R :=
  let c := coefficients w n in
  IZR (JS.round (JS.min 2 (JS.max (-2) c) * 1000)) / 1000.

Definition showIdeal (s : State) : State :=
  setAmplitudes (map (idealAmplitude (waveType s)) [1; 2; 3; 4; 5]%Z) s.

(** ** Series evaluator and derived displays *)

Section Derived.

Variable amps : list R.

Definition activeCount : nat :=
  List.length (filter (fun a => JS.gtb (JS.abs a) 0.001) amps).

Definition individualDatasets : list Dataset :=
  filterBoolean
    (mapi (fun amp i =>
             if JS.ltb (JS.abs amp) 0.001 then None
             else
               let n := (i + 1)%nat in
               Some {| ds_color := nth_error COLORS i;
                       ds_width := Some 2;
                       ds_opacity := Some 0.9;
                       ds_dash := None;
                       ds_data :=
                         map (fun x => (x, amp * sin (INR n * x))) X_VALUES |})
          amps).

Definition individualLegend : list LegendItem :=
  filterBoolean
    (mapi (fun amp i =>
             if JS.gtb (JS.abs amp) 0.001
             then Some {| li_color := nth_error COLORS i;
                          li_label := "n=" ++ Fmt.ofNat (i + 1) |}
             else None)
          amps).

(** The body of [sumData]: [y = 0], then [amplitudes.forEach] adds
    [amp * Math.sin((i + 1) * x)] for each index in turn. *)
Fixpoint forEachAdd (x : R) (i : nat) (l : list R) (y : R) : R :=
  match l with
  | [] => y
  | amp :: rest => forEachAdd x (S i) rest (y + amp * sin (INR (i + 1) * x))
  end.

Definition sumData : list Point :=
  map (fun x => (x, forEachAdd x 0 amps 0)) X_VALUES.

(** The datasets prop of the sum chart. *)
Definition sumDatasets : list Dataset :=
  [ {| ds_color := Some "#58A6FF"%string; ds_width := Some 2.5;
       ds_opacity := None; ds_dash := None; ds_data := sumData |} ].

(** ** Equation formatter *)

Record EqPart : Type := mkEqPart {
  sign : string; coeff : string; sinPart : string
}.

Definition eqParts : list EqPart :=
  filterBoolean
    (mapi (fun amp i =>
             if JS.ltb (JS.abs amp) 0.001 then None
             else
               let n := (i + 1)%nat in
               let coeff :=
                 if JS.eqb (JS.abs amp) 1 then ""
                 else Fmt.toFixed (JS.abs amp) 2 in
               let sign := if JS.ltb amp 0 then "−" else "+" in
               let sinPart :=
                 if Nat.eqb n 1 then "sin(x)"
                 else "sin(" ++ Fmt.ofNat n ++ "x)" in
               Some {| sign := sign; coeff := coeff; sinPart := sinPart |})
          amps)%string.

Definition equationStr : string :=
  match eqParts with
  | [] => "f(x) = 0"
  | _ =>
      "f(x) = " ++
      String.concat ""
        (mapi (fun p i =>
                 let prefix :=
                   if Nat.eqb i 0
                   then (if String.eqb (sign p) "−" then "−" else "")
                   else " " ++ sign p ++ " " in
                 prefix ++ coeff p ++ sinPart p)
              eqParts)
  end%string.

End Derived.

(** The target dataset: [X_VALUES.map((x) => ({ x, y: wave.fn(x) }))]. *)
Definition targetData (w : waveKey) : list Point :=
  map (fun x => (x, fn w x)) X_VALUES.

(** ** Event handlers and chart props *)

(** [next = [...prev]; next[idx] = val] on an array of numbers.  At an index
    inside the array the element is replaced.  At an index past the end
    JavaScript would extend the array, leaving holes; a list of reals has no
    value for that, so the result is [None] there. *)
Fixpoint setIndex (idx : nat) (val : R) (prev : list R) : option (list R) :=
  match prev, idx with
  | [], _ => None
  | _ :: rest, O => Some (val :: rest)
  | a :: rest, S idx' =>
      match setIndex idx' val rest with
      | Some rest' => Some (a :: rest')
      | None => None
      end
  end.

(** [setAmp(idx, val)]. *)
Definition setAmp (idx : nat) (val : R) (s : State) : option State :=
  match setIndex idx val (amplitudes s) with
  | Some next => Some (setAmplitudes next s)
  | None => None
  end.

(** [measure()]: with a mounted container of width [offsetWidth] the width
    is stored, capped at 960; without one nothing changes. *)
Definition measure (offsetWidth : option R) (s : State) : State :=
  match offsetWidth with
  | Some w =>
      {| amplitudes := amplitudes s; waveType := waveType s;
         containerWidth := JS.min w 960 |}
  | None => s
  end.

Definition graphWidth (s : State) : R := JS.max 400 (containerWidth s - 48).
Definition graphHeight : R := 220.

(** The input events of the widget.  One slider is rendered per amplitude,
    five in all; it reports its index and a value that [min = -2] and
    [max = 2] bound. *)
Inductive Event : Type :=
| SliderChange (idx : nat) (val : R)
| ResetClick
| IdealClick
| SelectChange (key : waveKey)
| Resize (offsetWidth : option R).

Definition handle (e : Event) (s : State) : option State :=
  match e with
  | SliderChange idx val => setAmp idx val s
  | ResetClick => Some (resetAll s)
  | IdealClick => Some (showIdeal s)
  | SelectChange key => Some (setWaveType key s)
  | Resize w => Some (measure w s)
  end.

Fixpoint run (es : list Event) (s : State) : option State :=
  match es with
  | [] => Some s
  | e :: rest =>
      match handle e s with
      | Some s' => run rest s'
      | None => None
      end
  end.

(** What the slider element guarantees about the event it reports. *)
Definition sliderEvent (e : Event) : Prop :=
  match e with
  | SliderChange idx val => (idx < 5)%nat /\ -2 <= val <= 2
  | _ => True
  end.

(** The invariant of the reachable states: five amplitudes, each inside the
    slider range, and a container width capped at 960. *)
Definition stateInv (s : State) : Prop :=
  List.length (amplitudes s) = 5%nat /\
  Forall (fun a => -2 <= a <= 2) (amplitudes s) /\
  containerWidth s <= 960.

(** The datasets prop of the comparison chart. *)
Definition compareDatasets (w : waveKey) (amps : list R) : list Dataset :=
  [ {| ds_color := Some "#3FB950"%string; ds_width := Some 2;
       ds_opacity := Some 0.7; ds_dash := Some "6,3"%string;
       ds_data := targetData w |};
    {| ds_color := Some "#58A6FF"%string; ds_width := Some 2;
       ds_opacity := None; ds_dash := None; ds_data := sumData amps |} ].

(** The numeric readout beside a slider:
    [{amp >= 0 ? " " : ""}{amp.toFixed(2)}]. *)
Definition readout (amp : R) : string :=
  ((if JS.leb 0 amp then " " else "") ++ Fmt.toFixed amp 2)%string.


(** ** The significance tests, index by index *)







(** ** The equation, term by term *)





(** ** The events the widget can produce *)


(** ** The waveform evaluators in binary64 *)

(** The evaluators once more, on IEEE 754 binary64 numbers: every [+], [-],
    [*], [/] rounds to nearest, ties to even, as a JavaScript number
    operation does, and [%] is the exact remainder. *)
Module B64.

Import PrimFloat SpecFloat FloatOps.

(** [Math.PI], the binary64 number nearest to pi. *)
Definition PI : float := 0x1.921fb54442d18p+1%float.

(** [x % y]: the remainder of the truncated quotient, computed exactly on
    the mantissas; it has the sign of [x]. *)
Definition rem (x y : float) : float :=
  match Prim2SF x, Prim2SF y with
  | S754_nan, _ => nan
  | _, S754_nan => nan
  | S754_infinity _, _ => nan
  | _, S754_zero _ => nan
  | S754_zero _, _ => x
  | S754_finite _ _ _, S754_infinity _ => x
  | S754_finite sx mx ex, S754_finite _ my ey =>
      let e := Z.min ex ey in
      let X := (Zpos mx * 2 ^ (ex - e))%Z in
      let Y := (Zpos my * 2 ^ (ey - e))%Z in
      let r := (X mod Y)%Z in
      if (r =? 0)%Z then (if sx then neg_zero else zero)
      else SF2Prim
             (binary_normalize prec emax (if sx then (- r)%Z else r) e false)
  end.

Definition phase (x : float) : float :=
  rem (rem x (2 * PI) + 2 * PI) (2 * PI).

Definition fn (w : waveKey) (x : float) : float :=
  match w with
  | square =>
      if (phase x <? PI)%float then 1%float else (-1)%float
  | sawtooth =>
      let p := phase x in
      (p / PI - 1)%float
  | triangle =>
      let p := phase x in
      if (p <? PI / 2)%float then ((2 * p) / PI)%float
      else if (p <? (3 * PI) / 2)%float then (2 - (2 * p) / PI)%float
      else ((2 * p) / PI - 4)%float
  end.



End B64.

(** * Properties *)

(** ** Facts about the number primitives *)

Lemma PI_bounds : 3.1415 < PI < 3.1416.
Proof.
  pose proof (PI_2_3_7_ineq 2) as [Hlo Hhi].
  unfold PI_2_3_7_tg, tg_alt, Ratan_seq in Hlo, Hhi.
  simpl in Hlo, Hhi.
  split; lra.
Qed.

Lemma floor_bounds (x : R) : IZR (JS.floor x) <= x < IZR (JS.floor x) + 1.
Proof.
  unfold JS.floor.
  destruct (base_Int_part x) as [H1 H2].
  split; lra.
Qed.

Lemma floor_eq (x : R) (k : Z) : IZR k <= x < IZR k + 1 -> JS.floor x = k.
Proof.
  intros [H1 H2]. unfold JS.floor.
  symmetry. apply Int_part_spec. split; lra.
Qed.

Lemma floor_IZR (k : Z) : JS.floor (IZR k) = k.
Proof. apply floor_eq. lra. Qed.

Lemma round_eq (x : R) (k : Z) :
  IZR k - / 2 <= x < IZR k + / 2 -> JS.round x = k.
Proof.
  intros [H1 H2]. unfold JS.round. apply floor_eq. lra.
Qed.

Lemma ltb_true (x y : R) : x < y -> JS.ltb x y = true.
Proof. intros H. unfold JS.ltb. destruct (Rlt_dec x y); [reflexivity | contradiction]. Qed.

Lemma ltb_false (x y : R) : y <= x -> JS.ltb x y = false.
Proof. intros H. unfold JS.ltb. destruct (Rlt_dec x y); [lra | reflexivity]. Qed.

Lemma ltb_iff (x y : R) : JS.ltb x y = true <-> x < y.
Proof.
  unfold JS.ltb. destruct (Rlt_dec x y); split; intros; try assumption;
    try reflexivity; try discriminate; contradiction.
Qed.

Lemma gtb_iff (x y : R) : JS.gtb x y = true <-> x > y.
Proof. unfold JS.gtb. rewrite ltb_iff. unfold Rgt. tauto. Qed.

Lemma leb_true (x y : R) : x <= y -> JS.leb x y = true.
Proof. intros H. unfold JS.leb. destruct (Rle_dec x y); [reflexivity | contradiction]. Qed.

Lemma leb_false (x y : R) : y < x -> JS.leb x y = false.
Proof. intros H. unfold JS.leb. destruct (Rle_dec x y); [lra | reflexivity]. Qed.

Lemma eqb_true (x y : R) : x = y -> JS.eqb x y = true.
Proof. intros H. unfold JS.eqb. destruct (Req_dec_T x y); [reflexivity | contradiction]. Qed.

Lemma eqb_false (x y : R) : x <> y -> JS.eqb x y = false.
Proof. intros H. unfold JS.eqb. destruct (Req_dec_T x y); [contradiction | reflexivity]. Qed.

(** [Math.pow(-1, k)] is the parity sign. *)
Lemma pow_m1_pos (p : positive) :
  (-1) ^ Pos.to_nat p = if Z.even (Z.pos p) then 1 else -1.
Proof.
  destruct p as [q|q|]; simpl Z.even.
  - rewrite Pos2Nat.inj_xI. apply pow_1_odd.
  - rewrite Pos2Nat.inj_xO. apply pow_1_even.
  - simpl. lra.
Qed.

Lemma pow_m1_parity (k : Z) : JS.pow (-1) k = if Z.even k then 1 else -1.
Proof.
  unfold JS.pow, powerRZ.
  destruct k as [|p|p].
  - reflexivity.
  - apply pow_m1_pos.
  - rewrite pow_m1_pos.
    change (Z.even (Z.neg p)) with (Z.even (Z.pos p)).
    destruct (Z.even (Z.pos p)); lra.
Qed.

(** ** Waveform model: the Fourier coefficients *)

Lemma rem2_nonneg (n : Z) :
  (0 <= n)%Z -> Z.rem n 2 = if Z.even n then 0%Z else 1%Z.
Proof.
  intros Hn. rewrite Z.rem_mod_nonneg by lia. apply Zmod_even.
Qed.

Lemma square_coefficient (n : Z) :
  (0 <= n)%Z ->
  coefficients square n = if Z.even n then 0 else 4 / (PI * IZR n).
Proof.
  intros Hn. unfold coefficients. rewrite rem2_nonneg by assumption.
  destruct (Z.even n); reflexivity.
Qed.

Lemma sawtooth_coefficient (n : Z) :
  (0 <= n)%Z ->
  coefficients sawtooth n = (2 / (PI * IZR n)) * (-1) ^ Z.to_nat (n + 1).
Proof.
  intros Hn. unfold coefficients, JS.pow.
  rewrite <- (Z2Nat.id (n + 1)) at 1 by lia.
  now rewrite <- pow_powerRZ.
Qed.

Lemma triangle_coefficient_even (n : Z) :
  (0 <= n)%Z -> Z.even n = true -> coefficients triangle n = 0.
Proof.
  intros Hn He. unfold coefficients. rewrite rem2_nonneg, He by assumption.
  reflexivity.
Qed.

Lemma triangle_coefficient_odd (k : Z) :
  (0 <= k)%Z ->
  coefficients triangle (2 * k + 1) =
  (-1) ^ Z.to_nat k * (8 / (PI ^ 2 * IZR (2 * k + 1) ^ 2)).
Proof.
  intros Hk. unfold coefficients, JS.pow.
  rewrite rem2_nonneg by lia.
  replace (Z.even (2 * k + 1)) with false
    by (rewrite Z.even_add, Z.even_mul; reflexivity).
  simpl Z.eqb.
  replace ((2 * k + 1 - 1) / 2)%Z with k
    by (replace (2 * k + 1 - 1)%Z with (k * 2)%Z by lia;
        now rewrite Z.div_mul by lia).
  rewrite <- (Z2Nat.id k) at 3 by lia.
  rewrite <- pow_powerRZ.
  rewrite Rmult_comm. f_equal. f_equal. ring.
Qed.

Lemma coefficient_magnitude_pos (n : Z) :
  (1 <= n)%Z -> 0 < 8 / (PI ^ 2 * IZR n ^ 2).
Proof.
  intros Hn. pose proof PI_RGT_0 as Hpi.
  assert (1 <= IZR n) by now apply IZR_le.
  apply Rdiv_lt_0_compat; [lra|].
  apply Rmult_lt_0_compat; apply pow_lt; lra.
Qed.

Lemma triangle_coefficient_abs (k : Z) :
  (0 <= k)%Z ->
  Rabs (coefficients triangle (2 * k + 1)) =
  8 / (PI ^ 2 * IZR (2 * k + 1) ^ 2).
Proof.
  intros Hk. rewrite triangle_coefficient_odd by assumption.
  pose proof (coefficient_magnitude_pos (2 * k + 1) ltac:(lia)) as Hpos.
  rewrite Rabs_mult, (Rabs_pos_eq (8 / _)) by lra.
  rewrite <- RPow_abs.
  replace (Rabs (-1)) with 1
    by (unfold Rabs; destruct (Rcase_abs (-1)); lra).
  rewrite pow1. lra.
Qed.

(** C2.  For every harmonic n in 1..5: the square coefficient is 0 at even n
    and 4/(pi n) at odd n; the sawtooth coefficient is
    (2/(pi n)) (-1)^(n+1), positive at n = 1; the triangle coefficient is 0
    at even n and, at odd n = 2k+1, (-1)^k 8/(pi^2 n^2), of magnitude
    8/(pi^2 n^2), positive at 1, negative at 3, positive at 5. *)
Theorem coefficients_closed_form (n : Z) (Hn : (1 <= n <= 5)%Z) :
  coefficients square n = (if Z.even n then 0 else 4 / (PI * IZR n)) /\
  coefficients sawtooth n = (2 / (PI * IZR n)) * (-1) ^ Z.to_nat (n + 1) /\
  (Z.even n = true -> coefficients triangle n = 0) /\
  (forall k : Z, n = (2 * k + 1)%Z ->
     coefficients triangle n =
       (-1) ^ Z.to_nat k * (8 / (PI ^ 2 * IZR n ^ 2)) /\
     Rabs (coefficients triangle n) = 8 / (PI ^ 2 * IZR n ^ 2)) /\
  (0 < coefficients sawtooth 1 /\ coefficients sawtooth 2 < 0) /\
  (0 < coefficients triangle 1 /\ coefficients triangle 3 < 0 /\
   0 < coefficients triangle 5).
Proof.
  split; [apply square_coefficient; lia|].
  split; [apply sawtooth_coefficient; lia|].
  split; [apply triangle_coefficient_even; lia|].
  split.
  - intros k ->. split.
    + apply triangle_coefficient_odd; lia.
    + apply triangle_coefficient_abs; lia.
  - pose proof PI_RGT_0 as Hpi.
    pose proof (coefficient_magnitude_pos 1 ltac:(lia)) as H1.
    pose proof (coefficient_magnitude_pos 3 ltac:(lia)) as H3.
    pose proof (coefficient_magnitude_pos 5 ltac:(lia)) as H5.
    split.
    + rewrite !sawtooth_coefficient by lia. simpl.
      assert (0 < 2 / (PI * 1)) by (apply Rdiv_lt_0_compat; lra).
      assert (0 < 2 / (PI * 2)) by (apply Rdiv_lt_0_compat; lra).
      split; lra.
    + pose proof (triangle_coefficient_odd 0 ltac:(lia)) as T1.
      pose proof (triangle_coefficient_odd 1 ltac:(lia)) as T3.
      pose proof (triangle_coefficient_odd 2 ltac:(lia)) as T5.
      simpl Z.add in T1, T3, T5.
      change (Z.to_nat 0) with 0%nat in T1.
      change (Z.to_nat 1) with 1%nat in T3.
      change (Z.to_nat 2) with 2%nat in T5.
      rewrite T1, T3, T5.
      repeat split; lra.
Qed.

Lemma coefficients_closed_form_witness :
  (1 <= 3 <= 5)%Z /\
  coefficients square 3 = 4 / (PI * 3) /\
  coefficients sawtooth 3 = (2 / (PI * 3)) * (-1) ^ 4 /\
  coefficients triangle 3 = (-1) ^ 1 * (8 / (PI ^ 2 * 3 ^ 2)).
Proof.
  assert (H : (1 <= 3 <= 5)%Z) by lia.
  split; [exact H|].
  destruct (coefficients_closed_form 3 H) as (Hsq & Hsaw & _ & Htri & _).
  split; [exact Hsq|]. split; [exact Hsaw|].
  exact (proj1 (Htri 1%Z eq_refl)).
Defined.

(** ** Interaction state: the ideal coefficients *)

Lemma inv_PI_bounds : 0.3183 < / PI < 0.31832.
Proof.
  pose proof PI_bounds as [Hlo Hhi].
  assert (Hpi : PI * / PI = 1) by (apply Rinv_r; lra).
  assert (Hpos : 0 < / PI) by (apply Rinv_0_lt_compat; lra).
  split; nra.
Qed.

Lemma inv_harmonic_bounds (n : Z) : (1 <= n)%Z -> 0 < / IZR n <= 1.
Proof.
  intros Hn. assert (H1 : 1 <= IZR n) by now apply IZR_le.
  assert (Hn0 : IZR n * / IZR n = 1) by (apply Rinv_r; lra).
  assert (Hpos : 0 < / IZR n) by (apply Rinv_0_lt_compat; lra).
  split; nra.
Qed.

Lemma Rabs_sign_mult (c : R) (b : bool) :
  Rabs (c * (if b then 1 else -1)) = Rabs c.
Proof.
  destruct b.
  - now rewrite Rmult_1_r.
  - replace (c * -1) with (- c) by ring. apply Rabs_Ropp.
Qed.

(** No coefficient exceeds the first square coefficient in magnitude. *)
Lemma coefficient_bound (w : waveKey) (n : Z) :
  (1 <= n)%Z -> Rabs (coefficients w n) <= 4 / PI.
Proof.
  intros Hn.
  pose proof inv_PI_bounds as [Hp1 Hp2].
  pose proof (inv_harmonic_bounds n Hn) as [Hn1 Hn2].
  pose proof PI_RGT_0 as Hpi.
  assert (Hnz : IZR n <> 0) by (apply not_0_IZR; lia).
  destruct w; unfold coefficients.
  - rewrite rem2_nonneg by lia. destruct (Z.even n); simpl Z.eqb; cbv iota.
    + rewrite Rabs_R0. unfold Rdiv. nra.
    + replace (4 / (PI * IZR n)) with (4 * / PI * / IZR n)
        by (field; split; lra).
      rewrite Rabs_pos_eq by nra. unfold Rdiv. nra.
  - rewrite pow_m1_parity, Rabs_sign_mult.
    replace (2 / (PI * IZR n)) with (2 * / PI * / IZR n)
      by (field; split; lra).
    rewrite Rabs_pos_eq by nra. unfold Rdiv. nra.
  - rewrite rem2_nonneg by lia. destruct (Z.even n); simpl Z.eqb; cbv iota.
    + rewrite Rabs_R0. unfold Rdiv. nra.
    + cbv zeta. rewrite pow_m1_parity, Rabs_sign_mult.
      replace (8 / (PI * PI * IZR n * IZR n))
        with (4 * / PI * (2 * / PI * (/ IZR n * / IZR n)))
        by (field; split; lra).
      assert (0 < / IZR n * / IZR n <= 1) by nra.
      assert (0 < 2 * / PI * (/ IZR n * / IZR n) <= 1) by nra.
      rewrite Rabs_pos_eq by nra. unfold Rdiv. nra.
Qed.

Lemma clamp_id (c : R) : -2 <= c <= 2 -> JS.min 2 (JS.max (-2) c) = c.
Proof.
  intros [H1 H2]. unfold JS.min, JS.max.
  rewrite (Rmax_right (-2) c) by lra. apply Rmin_right. lra.
Qed.

Lemma coefficient_le_2 (w : waveKey) (n : Z) :
  (1 <= n)%Z -> -2 <= coefficients w n <= 2.
Proof.
  intros Hn. pose proof (coefficient_bound w n Hn) as Hb.
  pose proof inv_PI_bounds as [Hp1 Hp2].
  assert (H2 : Rabs (coefficients w n) <= 2) by (unfold Rdiv in Hb; nra).
  revert H2. unfold Rabs. destruct (Rcase_abs (coefficients w n)); lra.
Qed.

Lemma idealAmplitude_unclamped (w : waveKey) (n : Z) :
  (1 <= n)%Z ->
  idealAmplitude w n = IZR (JS.round (coefficients w n * 1000)) / 1000.
Proof.
  intros Hn. unfold idealAmplitude. cbv zeta.
  now rewrite clamp_id by (apply coefficient_le_2; exact Hn).
Qed.

(** C10.  For each waveform and every n in 1..5 the coefficient has magnitude
    at most 4/pi, the first square coefficient, which is below 2; so the
    clamp to [-2, 2] returns the coefficient and the stored amplitude is the
    coefficient rounded to 3 decimal places. *)
Theorem ideal_clamp_is_noop (w : waveKey) (n : Z) (Hn : (1 <= n <= 5)%Z) :
  Rabs (coefficients w n) <= Rabs (coefficients square 1) /\
  Rabs (coefficients square 1) = 4 / PI /\
  Rabs (coefficients w n) <= 2 /\
  JS.min 2 (JS.max (-2) (coefficients w n)) = coefficients w n /\
  idealAmplitude w n = IZR (JS.round (coefficients w n * 1000)) / 1000.
Proof.
  pose proof inv_PI_bounds as [Hp1 Hp2].
  pose proof (coefficient_bound w n ltac:(lia)) as Hb.
  pose proof (coefficient_le_2 w n ltac:(lia)) as H2.
  assert (Hs1 : Rabs (coefficients square 1) = 4 / PI).
  { unfold coefficients. simpl Z.rem. simpl Z.eqb. cbv iota.
    rewrite Rmult_1_r. apply Rabs_pos_eq. unfold Rdiv. nra. }
  split; [rewrite Hs1; exact Hb|].
  split; [exact Hs1|].
  split; [apply Rabs_le; exact H2|].
  split; [apply clamp_id; exact H2|].
  apply idealAmplitude_unclamped. lia.
Qed.

Lemma ideal_clamp_is_noop_witness :
  (1 <= 1 <= 5)%Z /\
  idealAmplitude square 1 = IZR (JS.round (coefficients square 1 * 1000)) / 1000.
Proof.
  assert (H : (1 <= 1 <= 5)%Z) by lia.
  split; [exact H|].
  exact (proj2 (proj2 (proj2 (proj2 (ideal_clamp_is_noop square 1 H))))).
Defined.

Lemma idealAmplitude_square_odd (n k : Z) :
  (1 <= n)%Z -> Z.even n = false ->
  IZR k - / 2 <= 4000 * / PI * / IZR n < IZR k + / 2 ->
  idealAmplitude square n = IZR k / 1000.
Proof.
  intros Hn Ho Hk. rewrite idealAmplitude_unclamped by assumption.
  rewrite square_coefficient, Ho by lia.
  f_equal. f_equal. apply round_eq.
  replace (4 / (PI * IZR n) * 1000) with (4000 * / PI * / IZR n).
  - exact Hk.
  - pose proof PI_RGT_0. assert (IZR n <> 0) by (apply not_0_IZR; lia).
    field. split; lra.
Qed.

Lemma idealAmplitude_square_even (n : Z) :
  (1 <= n)%Z -> Z.even n = true -> idealAmplitude square n = 0.
Proof.
  intros Hn He. rewrite idealAmplitude_unclamped by assumption.
  rewrite square_coefficient, He by lia.
  rewrite Rmult_0_l.
  rewrite (round_eq 0 0) by lra. lra.
Qed.

(** C3.  [showIdeal] replaces the amplitudes by, for n = 1..5 in order, the
    coefficient of the active waveform at n clamped to [-2, 2] and rounded
    to 3 decimal places; it keeps the selected waveform key (and the
    container width); with the square wave active the new amplitudes are
    [1.273, 0, 0.424, 0, 0.255]. *)
Theorem showIdeal_spec (s : State) :
  let ideal n :=
    IZR (JS.round (JS.min 2 (JS.max (-2) (coefficients (waveType s) n)) * 1000))
    / 1000 in
  amplitudes (showIdeal s) = [ideal 1%Z; ideal 2%Z; ideal 3%Z; ideal 4%Z; ideal 5%Z] /\
  waveType (showIdeal s) = waveType s /\
  containerWidth (showIdeal s) = containerWidth s /\
  amplitudes (showIdeal (setWaveType square s)) =
    [1.273; 0; 0.424; 0; 0.255].
Proof.
  cbv zeta. split; [reflexivity|]. split; [reflexivity|].
  split; [reflexivity|].
  pose proof inv_PI_bounds as [Hp1 Hp2].
  unfold showIdeal, setAmplitudes, setWaveType. simpl amplitudes.
  simpl waveType. simpl map.
  rewrite (idealAmplitude_square_odd 1 1273) by (first [lia | reflexivity | lra]).
  rewrite (idealAmplitude_square_even 2) by (first [lia | reflexivity | lra]).
  rewrite (idealAmplitude_square_odd 3 424) by (first [lia | reflexivity | lra]).
  rewrite (idealAmplitude_square_even 4) by (first [lia | reflexivity | lra]).
  rewrite (idealAmplitude_square_odd 5 255) by (first [lia | reflexivity | lra]).
  repeat f_equal; lra.
Qed.

(** ** Waveform model: phase reduction *)

Lemma trunc_nonneg (x : R) :
  0 <= x -> IZR (JS.trunc x) <= x < IZR (JS.trunc x) + 1.
Proof.
  intros Hx. unfold JS.trunc.
  destruct (Rle_dec 0 x); [apply floor_bounds | contradiction].
Qed.

Lemma trunc_neg (x : R) :
  x < 0 -> x <= IZR (JS.trunc x) < x + 1.
Proof.
  intros Hx. unfold JS.trunc.
  destruct (Rle_dec 0 x); [lra|].
  rewrite opp_IZR. pose proof (floor_bounds (- x)). lra.
Qed.

Section Rem.

Variable m : R.
Hypothesis m_pos : 0 < m.

Lemma rem_multiple (x : R) : exists k : Z, JS.rem x m = x - m * IZR k.
Proof. exists (JS.trunc (x / m)). reflexivity. Qed.

Lemma div_mult_cancel (x : R) : m * (x / m) = x.
Proof. field. lra. Qed.

Lemma rem_nonneg (x : R) : 0 <= x -> 0 <= JS.rem x m < m.
Proof.
  intros Hx. unfold JS.rem.
  assert (Hq : 0 <= x / m).
  { unfold Rdiv. assert (0 < / m) by (apply Rinv_0_lt_compat; lra). nra. }
  pose proof (trunc_nonneg (x / m) Hq) as [H1 H2].
  pose proof (div_mult_cancel x) as Hc.
  split; nra.
Qed.

Lemma rem_neg (x : R) : x < 0 -> - m < JS.rem x m <= 0.
Proof.
  intros Hx. unfold JS.rem.
  assert (Hq : x / m < 0).
  { unfold Rdiv. assert (0 < / m) by (apply Rinv_0_lt_compat; lra). nra. }
  pose proof (trunc_neg (x / m) Hq) as [H1 H2].
  pose proof (div_mult_cancel x) as Hc.
  split; nra.
Qed.

Lemma rem_range (x : R) : - m < JS.rem x m < m.
Proof.
  destruct (Rle_dec 0 x) as [Hx|Hx].
  - pose proof (rem_nonneg x Hx). lra.
  - pose proof (rem_neg x ltac:(lra)). lra.
Qed.

(** Two points of [0, m) that differ by a multiple of [m] are equal. *)
Lemma residue_unique (a b : R) (k : Z) :
  0 <= a < m -> 0 <= b < m -> a - b = m * IZR k -> a = b.
Proof.
  intros Ha Hb Hk.
  assert (Hz : k = 0%Z).
  { assert (H1 : (-1 < k)%Z).
    { apply lt_IZR. destruct (Rle_dec (IZR k) (-1)); [nra | lra]. }
    assert (H2 : (k < 1)%Z).
    { apply lt_IZR. destruct (Rle_dec 1 (IZR k)); [nra | lra]. }
    lia. }
  subst k. lra.
Qed.

End Rem.

Lemma two_PI_pos : 0 < 2 * PI.
Proof. pose proof PI_RGT_0. lra. Qed.

(** The reduced phase lies in [0, 2 pi). *)
Lemma phase_range (x : R) : 0 <= phase x < 2 * PI.
Proof.
  unfold phase. apply rem_nonneg; [apply two_PI_pos|].
  pose proof (rem_range (2 * PI) two_PI_pos x). lra.
Qed.

(** The reduced phase differs from [x] by a whole number of periods. *)
Lemma phase_multiple (x : R) : exists k : Z, phase x = x - 2 * PI * IZR k.
Proof.
  unfold phase.
  destruct (rem_multiple (2 * PI) x) as [k1 H1].
  destruct (rem_multiple (2 * PI) (JS.rem x (2 * PI) + 2 * PI)) as [k2 H2].
  exists (k1 + k2 - 1)%Z. rewrite H2, H1, minus_IZR, plus_IZR. ring.
Qed.

Lemma phase_congruent (x y : R) (k : Z) :
  y = x + 2 * PI * IZR k -> phase y = phase x.
Proof.
  intros ->.
  destruct (phase_multiple x) as [k1 H1].
  destruct (phase_multiple (x + 2 * PI * IZR k)) as [k2 H2].
  apply (residue_unique (2 * PI) _ _ (k - k2 + k1)%Z);
    try apply phase_range.
  rewrite H1, H2, plus_IZR, minus_IZR. ring.
Qed.

Lemma phase_period (x : R) : phase (x + 2 * PI) = phase x.
Proof. apply (phase_congruent x _ 1). ring. Qed.


(** Read without rounding, each evaluator has period 2 pi on the whole real
    line and the reduced phase differs from x by a whole number of periods.
    This is a fact of the exact reading only: see [B64.fn] for the rounded
    one. *)
Lemma fn_periodic_exact (w : waveKey) (x : R) :
  fn w x = fn w (x + 2 * PI) /\
  0 <= phase x < 2 * PI /\
  (exists k : Z, phase x = x - 2 * PI * IZR k).
Proof.
  split; [|split; [apply phase_range | apply phase_multiple]].
  destruct w; unfold fn; cbv zeta; now rewrite phase_period.
Qed.

(** ** Waveform model: the values of the evaluators *)

(** The reduced phase in units of pi. *)
Lemma phase_over_PI (x : R) :
  exists q : R, phase x = q * PI /\ 0 <= q < 2 /\ phase x / PI = q.
Proof.
  pose proof PI_RGT_0 as Hpi. pose proof (phase_range x) as [H1 H2].
  exists (phase x / PI).
  assert (Hq : phase x = phase x / PI * PI) by (field; lra).
  assert (Hi : 0 < / PI) by (apply Rinv_0_lt_compat; lra).
  split; [exact Hq|]. split; [|reflexivity].
  split; [unfold Rdiv; nra|].
  apply (Rmult_lt_reg_r PI); [lra|]. rewrite <- Hq. lra.
Qed.


Lemma fn_range (w : waveKey) (x : R) : -1 <= fn w x <= 1.
Proof.
  pose proof PI_RGT_0 as Hpi.
  destruct (phase_over_PI x) as (q & Hp & [Hq1 Hq2] & Hd).
  destruct w; unfold fn; cbv zeta.
  - destruct (JS.ltb (phase x) PI); lra.
  - rewrite Hd. lra.
  - replace (2 * phase x / PI) with (2 * q)
      by (rewrite <- Hd; field; lra).
    unfold JS.ltb.
    destruct (Rlt_dec (phase x) (PI / 2)) as [Ha|Ha];
      [|destruct (Rlt_dec (phase x) (3 * PI / 2)) as [Hb|Hb]];
      rewrite Hp in *; nra.
Qed.











(** ** Sampler and series evaluator *)

Lemma INR_NUM_POINTS : INR NUM_POINTS = 500.
Proof. unfold NUM_POINTS. rewrite INR_IZR_INZ. reflexivity. Qed.

Lemma X_VALUES_grid : X_VALUES = map gridPoint (seq 0 501).
Proof.
  unfold X_VALUES, generateXValues.
  change (S NUM_POINTS) with 501%nat.
  apply map_ext. intros i. unfold gridPoint. rewrite INR_NUM_POINTS. ring.
Qed.

Lemma X_VALUES_length : List.length X_VALUES = 501%nat.
Proof. rewrite X_VALUES_grid, length_map, length_seq. reflexivity. Qed.

Lemma forEachAdd_five (x a0 a1 a2 a3 a4 : R) :
  forEachAdd x 0 [a0; a1; a2; a3; a4] 0 =
  a0 * sin (1 * x) + a1 * sin (2 * x) + a2 * sin (3 * x) +
  a3 * sin (4 * x) + a4 * sin (5 * x).
Proof.
  unfold forEachAdd.
  change (INR (0 + 1)) with (INR 1). change (INR (1 + 1)) with (INR 2).
  change (INR (2 + 1)) with (INR 3). change (INR (3 + 1)) with (INR 4).
  change (INR (4 + 1)) with (INR 5).
  rewrite !INR_IZR_INZ. simpl Z.of_nat. ring.
Qed.

(** C6.  Whatever the five amplitudes are, the sum chart receives exactly
    one dataset; its samples are, in grid order over the 501 points
    xs[i] = (i/500) 2 pi of the shared grid, the pairs
    (xs[i], sum over j of a[j] sin((j+1) xs[i])); for the all-zero vector
    every sample value is 0. *)
Theorem sumData_spec (a0 a1 a2 a3 a4 : R) :
  let amps := [a0; a1; a2; a3; a4] in
  (exists d, sumDatasets amps = [d] /\ ds_data d = sumData amps) /\
  X_VALUES = map gridPoint (seq 0 501) /\
  List.length (sumData amps) = 501%nat /\
  sumData amps =
    map (fun i =>
           let x := gridPoint i in
           (x, a0 * sin (1 * x) + a1 * sin (2 * x) + a2 * sin (3 * x) +
               a3 * sin (4 * x) + a4 * sin (5 * x)))
        (seq 0 501) /\
  sumData [0; 0; 0; 0; 0] = map (fun i => (gridPoint i, 0)) (seq 0 501).
Proof.
  cbv zeta.
  split; [eexists; split; reflexivity|].
  split; [exact X_VALUES_grid|].
  split; [unfold sumData; now rewrite length_map, X_VALUES_length|].
  split.
  - unfold sumData. rewrite X_VALUES_grid, map_map.
    apply map_ext. intros i. now rewrite forEachAdd_five.
  - unfold sumData. rewrite X_VALUES_grid, map_map.
    apply map_ext. intros i. rewrite forEachAdd_five. f_equal. ring.
Qed.

(** ** Coordinate mapper *)

Lemma clamp_cases (lo hi y : R) :
  lo <= hi ->
  lo <= JS.max lo (JS.min hi y) <= hi /\
  (lo <= y <= hi -> JS.max lo (JS.min hi y) = y) /\
  (hi <= y -> JS.max lo (JS.min hi y) = hi) /\
  (y <= lo -> JS.max lo (JS.min hi y) = lo).
Proof.
  intros Hr. unfold JS.max, JS.min, Rmax, Rmin.
  destruct (Rle_dec hi y); destruct (Rle_dec lo hi);
    destruct (Rle_dec lo y); repeat split; intros; lra.
Qed.

Lemma toSVGY_bounds (height yMin yMax y : R) :
  yMin < yMax -> 0 <= Graph.plotH height -> yMin <= y <= yMax ->
  Graph.top Graph.padding <= Graph.toSVGY height yMin yMax y
    <= Graph.top Graph.padding + Graph.plotH height.
Proof.
  intros Hr Hh Hy. unfold Graph.toSVGY.
  set (t := (yMax - y) / (yMax - yMin)).
  assert (Ht : 0 <= t <= 1).
  { unfold t, Rdiv.
    assert (Hi : 0 < / (yMax - yMin)) by (apply Rinv_0_lt_compat; lra).
    assert (Hone : (yMax - yMin) * / (yMax - yMin) = 1)
      by (apply Rinv_r; lra).
    split; nra. }
  split; nra.
Qed.

(** C8.  toSVGX is left + (x / 2 pi) plotW and toSVGY is
    top + ((yMax - y) / (yMax - yMin)) plotH; a data line maps the
    y-coordinate after clamping it into [yMin, yMax].  So x = 0 lands on the
    left edge and x = 2 pi on the right edge, yMax on the top edge and yMin
    on the bottom edge, a clamped point never leaves the plot rows, and with
    the range [-2.2, 2.2] the value 3.0 is drawn on the row of 2.2. *)
Theorem coordinate_mapping (width height yMin yMax : R)
    (Hrange : yMin < yMax) :
  let left := Graph.left Graph.padding in
  let top := Graph.top Graph.padding in
  let plotW := Graph.plotW width in
  let plotH := Graph.plotH height in
  let toX := Graph.toSVGX width in
  let toY := Graph.toSVGY height yMin yMax in
  let clamp y := JS.max yMin (JS.min yMax y) in
  (left = 52 /\ top = 40 /\ plotW = width - 52 - 24 /\
   plotH = height - 40 - 44) /\
  (forall x, toX x = left + (x / (2 * PI)) * plotW) /\
  (forall y, toY y = top + ((yMax - y) / (yMax - yMin)) * plotH) /\
  (forall pt, Graph.dataPoint width height yMin yMax pt =
              (toX (fst pt), toY (clamp (snd pt)))) /\
  (forall y, yMin <= clamp y <= yMax /\
             (yMin <= y <= yMax -> clamp y = y) /\
             (yMax <= y -> clamp y = yMax) /\
             (y <= yMin -> clamp y = yMin)) /\
  toX 0 = left /\
  toX (2 * PI) = left + plotW /\
  toY yMax = top /\
  toY yMin = top + plotH /\
  (0 <= plotH ->
   forall pt, top <= snd (Graph.dataPoint width height yMin yMax pt)
              <= top + plotH) /\
  (forall x, Graph.dataPoint width height (-2.2) 2.2 (x, 3.0) =
             Graph.dataPoint width height (-2.2) 2.2 (x, 2.2)).
Proof.
  cbv zeta. pose proof PI_RGT_0 as Hpi.
  split; [repeat split; reflexivity|].
  split; [reflexivity|]. split; [reflexivity|]. split; [reflexivity|].
  split; [intros y; apply clamp_cases; lra|].
  split; [unfold Graph.toSVGX; field; lra|].
  split; [unfold Graph.toSVGX; field; lra|].
  split; [unfold Graph.toSVGY; field; lra|].
  split; [unfold Graph.toSVGY; field; lra|].
  split.
  - intros Hh pt. unfold Graph.dataPoint. cbv zeta. simpl snd.
    apply toSVGY_bounds; try assumption. apply clamp_cases. lra.
  - intros x. unfold Graph.dataPoint. cbv zeta. simpl snd. simpl fst.
    destruct (clamp_cases (-2.2) 2.2 3.0 ltac:(lra)) as (_ & _ & H3 & _).
    destruct (clamp_cases (-2.2) 2.2 2.2 ltac:(lra)) as (_ & _ & H2 & _).
    rewrite H3, H2 by lra. reflexivity.
Qed.

Lemma coordinate_mapping_witness :
  -2.2 < 2.2 /\
  Graph.toSVGX 800 (2 * PI) = 52 + (800 - 52 - 24) /\
  Graph.toSVGY 220 (-2.2) 2.2 (-2.2) = 40 + (220 - 40 - 44).
Proof.
  assert (H : -2.2 < 2.2) by lra.
  split; [exact H|].
  destruct (coordinate_mapping 800 220 (-2.2) 2.2 H)
    as (_ & _ & _ & _ & _ & _ & HX & _ & HY & _).
  split; [exact HX | exact HY].
Defined.

(** ** Chart renderer: gridlines and labels *)

Lemma yTicks_loop_step (yMax v : R) (k : Z) (fuel : nat) :
  v <= yMax -> IZR k - / 2 <= v * 10 < IZR k + / 2 ->
  Graph.yTicks_loop yMax (S fuel) v =
  IZR k / 10 :: Graph.yTicks_loop yMax fuel (v + 0.5).
Proof.
  intros Hv Hk. simpl. rewrite leb_true by exact Hv.
  now rewrite (round_eq _ k Hk).
Qed.

Lemma yTicks_loop_stop (yMax v : R) (fuel : nat) :
  yMax < v -> Graph.yTicks_loop yMax fuel v = [].
Proof.
  intros Hv. destruct fuel; simpl; [reflexivity|].
  now rewrite leb_false by exact Hv.
Qed.

(** Once the guard is due to fail within [n] iterations, more fuel changes
    nothing: the loop leaves through its guard. *)
Lemma yTicks_loop_stable (yMax : R) (n : nat) :
  forall v m, (yMax - v) * 2 < INR n -> (n <= m)%nat ->
  Graph.yTicks_loop yMax m v = Graph.yTicks_loop yMax n v.
Proof.
  induction n as [|n IH]; intros v m Hv Hm.
  - simpl in Hv. rewrite !yTicks_loop_stop by lra. reflexivity.
  - destruct m as [|m]; [lia|]. simpl.
    destruct (JS.leb v yMax); [|reflexivity].
    f_equal. apply IH; [|lia].
    rewrite S_INR in Hv. lra.
Qed.

Lemma yTicks_fuel_enough (yMin yMax : R) :
  (yMax - yMin) * 2 < INR (Graph.yTicks_fuel yMin yMax).
Proof.
  unfold Graph.yTicks_fuel. rewrite S_INR, INR_IZR_INZ.
  pose proof (floor_bounds ((yMax - yMin) * 2)) as [_ Hf].
  set (k := JS.floor ((yMax - yMin) * 2)) in *.
  assert (Hk : (k + 1 <= Z.of_nat (Z.to_nat (k + 1)))%Z) by lia.
  apply IZR_le in Hk. rewrite plus_IZR in Hk. lra.
Qed.

(** The tick loop terminates: any larger iteration budget yields the same
    ticks. *)
Lemma yTicks_total (yMin yMax : R) (m : nat) :
  (Graph.yTicks_fuel yMin yMax <= m)%nat ->
  Graph.yTicks_loop yMax m yMin = Graph.yTicks yMin yMax.
Proof.
  intros Hm. unfold Graph.yTicks.
  apply yTicks_loop_stable; [apply yTicks_fuel_enough | exact Hm].
Qed.

Lemma yTicks_fuel_fixed : Graph.yTicks_fuel (-2.2) 2.2 = 10%nat.
Proof.
  unfold Graph.yTicks_fuel. rewrite (floor_eq _ 8) by lra. reflexivity.
Qed.

Ltac tick_step k v' :=
  rewrite (yTicks_loop_step _ _ k) by lra;
  match goal with
  | |- context [Graph.yTicks_loop _ _ (?v + 0.5)] =>
      replace (v + 0.5) with v' by lra
  end.

Lemma yTicks_fixed :
  Graph.yTicks (-2.2) 2.2 =
  [-2.2; -1.7; -1.2; -0.7; -0.2; 0.3; 0.8; 1.3; 1.8].
Proof.
  unfold Graph.yTicks. rewrite yTicks_fuel_fixed.
  tick_step (-22)%Z (-1.7). tick_step (-17)%Z (-1.2).
  tick_step (-12)%Z (-0.7). tick_step (-7)%Z (-0.2).
  tick_step (-2)%Z 0.3. tick_step 3%Z 0.8. tick_step 8%Z 1.3.
  tick_step 13%Z 1.8. tick_step 18%Z 2.3.
  rewrite yTicks_loop_stop by lra.
  repeat f_equal; lra.
Qed.

Lemma not_integer_label (v : R) (k : Z) :
  IZR k - / 2 <= v < IZR k + / 2 -> v <> IZR k ->
  JS.eqb v (IZR (JS.round v)) = false.
Proof.
  intros Hk Hne. rewrite (round_eq v k Hk). now apply eqb_false.
Qed.

(** C9, evaluated on the range every chart uses.  The tick loop starts at
    yMin = -2.2 and steps by 0.5, so the horizontal gridlines sit at
    -2.2, -1.7, ..., 1.8; none of them is at an integer and the integer
    filter of the y-axis labels keeps no tick at all.  The vertical
    gridlines, their labels and the zero axis are as stated. *)
Theorem yTicks_fixed_range :
  Graph.yTicks (-2.2) 2.2 =
    [-2.2; -1.7; -1.2; -0.7; -0.2; 0.3; 0.8; 1.3; 1.8] /\
  (forall k : Z, ~ In (IZR k) (Graph.yTicks (-2.2) 2.2)) /\
  Graph.yLabelTicks (-2.2) 2.2 = [] /\
  Graph.xTicks = [0; PI / 2; PI; 3 * PI / 2; 2 * PI] /\
  Graph.xLabels = ["0"; "π/2"; "π"; "3π/2"; "2π"]%string /\
  (forall width, map fst (Graph.xAxisLabels width) = Graph.xGridLines width /\
                 map snd (Graph.xAxisLabels width) = map Some Graph.xLabels) /\
  (forall height yMin yMax,
     Graph.zeroAxis height yMin yMax = Graph.toSVGY height yMin yMax 0).
Proof.
  split; [exact yTicks_fixed|].
  split.
  { intros k. rewrite yTicks_fixed. simpl.
    intros H.
    assert (Hk : (-3 < k < 2)%Z \/ (k <= -3)%Z \/ (2 <= k)%Z) by lia.
    destruct Hk as [Hk | [Hk | Hk]].
    - assert (Hc : k = (-2)%Z \/ k = (-1)%Z \/ k = 0%Z \/ k = 1%Z) by lia.
      destruct Hc as [-> | [-> | [-> | ->]]];
        repeat (destruct H as [H | H]; [lra|]); exact H.
    - apply IZR_le in Hk.
      repeat (destruct H as [H | H]; [lra|]); exact H.
    - apply IZR_le in Hk.
      repeat (destruct H as [H | H]; [lra|]); exact H. }
  split.
  { unfold Graph.yLabelTicks. rewrite yTicks_fixed. simpl.
    rewrite (not_integer_label (-2.2) (-2)) by lra.
    rewrite (not_integer_label (-1.7) (-2)) by lra.
    rewrite (not_integer_label (-1.2) (-1)) by lra.
    rewrite (not_integer_label (-0.7) (-1)) by lra.
    rewrite (not_integer_label (-0.2) 0) by lra.
    rewrite (not_integer_label 0.3 0) by lra.
    rewrite (not_integer_label 0.8 1) by lra.
    rewrite (not_integer_label 1.3 1) by lra.
    rewrite (not_integer_label 1.8 2) by lra.
    reflexivity. }
  repeat split; reflexivity.
Qed.

(** ** Significance threshold *)

Ltac js_abs :=
  unfold JS.abs;
  repeat match goal with
    | |- context [Rabs ?x] =>
        first [ rewrite (Rabs_pos_eq x) by lra
              | rewrite (Rabs_left x) by lra ]
    end.

Ltac js_cmp :=
  unfold JS.gtb;
  repeat match goal with
    | |- context [JS.ltb ?x ?y] =>
        first [ rewrite (ltb_true x y) by lra
              | rewrite (ltb_false x y) by lra ]
    | |- context [JS.eqb ?x ?y] =>
        first [ rewrite (eqb_true x y) by lra
              | rewrite (eqb_false x y) by lra ]
    end.

(** The legend and the count use the same test, at every amplitude. *)
Lemma legend_length_from (amps : list R) :
  forall i,
  List.length
    (filterBoolean
       (mapi_from (fun amp i =>
                     if JS.gtb (JS.abs amp) 0.001
                     then Some {| li_color := nth_error COLORS i;
                                  li_label := "n=" ++ Fmt.ofNat (i + 1) |}
                     else None) i amps)) =
  List.length (filter (fun a => JS.gtb (JS.abs a) 0.001) amps).
Proof.
  induction amps as [|a rest IH]; intros i; simpl; [reflexivity|].
  destruct (JS.gtb (JS.abs a) 0.001); simpl; now rewrite IH.
Qed.

Lemma legend_count_agree (amps : list R) :
  List.length (individualLegend amps) = activeCount amps.
Proof. apply legend_length_from. Qed.

(** The chart uses the negated opposite test; it agrees with the count when
    no amplitude has magnitude exactly 0.001. *)
Lemma datasets_length_from (amps : list R) :
  (forall a, In a amps -> JS.abs a <> 0.001) ->
  forall i,
  List.length
    (filterBoolean
       (mapi_from (fun amp i =>
                     if JS.ltb (JS.abs amp) 0.001 then None
                     else
                       let n := (i + 1)%nat in
                       Some {| ds_color := nth_error COLORS i;
                               ds_width := Some 2;
                               ds_opacity := Some 0.9;
                               ds_dash := None;
                               ds_data :=
                                 map (fun x => (x, amp * sin (INR n * x)))
                                     X_VALUES |}) i amps)) =
  List.length (filter (fun a => JS.gtb (JS.abs a) 0.001) amps).
Proof.
  induction amps as [|a rest IH]; intros Hne i; [reflexivity|].
  assert (Ha : JS.abs a <> 0.001) by (apply Hne; now left).
  assert (Hrest : forall b, In b rest -> JS.abs b <> 0.001)
    by (intros b Hb; apply Hne; now right).
  cbn [mapi_from filter]. unfold JS.gtb.
  destruct (Rlt_dec (JS.abs a) 0.001) as [Hlt|Hge].
  - rewrite ltb_true by exact Hlt. rewrite ltb_false by lra.
    cbn [filterBoolean]. now apply IH.
  - rewrite ltb_false by lra. rewrite ltb_true by lra.
    cbn [filterBoolean List.length]. f_equal. now apply IH.
Qed.

Lemma datasets_count_off_boundary (amps : list R) :
  (forall a, In a amps -> JS.abs a <> 0.001) ->
  List.length (individualDatasets amps) = activeCount amps.
Proof. intros H. now apply datasets_length_from. Qed.


(** Away from the boundary the three tests agree: 0.0005 is left out of the
    chart, the legend and the count, 0.0011 is in all three. *)
Lemma threshold_examples :
  (individualDatasets [0; 0; 0.0005; 0; 0] = [] /\
   individualLegend [0; 0; 0.0005; 0; 0] = [] /\
   activeCount [0; 0; 0.0005; 0; 0] = 0%nat) /\
  (map ds_color (individualDatasets [0; 0; 0.0011; 0; 0]) =
     [Some "#2A9D8F"%string] /\
   individualLegend [0; 0; 0.0011; 0; 0] =
     [{| li_color := Some "#2A9D8F"%string; li_label := "n=3" |}] /\
   activeCount [0; 0; 0.0011; 0; 0] = 1%nat).
Proof.
  unfold individualDatasets, individualLegend, activeCount, mapi.
  cbn [mapi_from filter]. js_abs. js_cmp.
  repeat split; reflexivity.
Qed.

(** ** Equation formatter *)

Example fixedDigits_samples :
  Fmt.fixedDigits 200 2 = "2.00"%string /\
  Fmt.fixedDigits 5 2 = "0.05"%string /\
  Fmt.fixedDigits 0 2 = "0.00"%string /\
  Fmt.fixedDigits 1234 1 = "123.4"%string /\
  Fmt.fixedDigits 17 0 = "17"%string.
Proof. repeat split; reflexivity. Qed.





(** * Further properties *)

(** ** Slider edits *)

Lemma setIndex_in_range (prev : list R) :
  forall idx val, (idx < List.length prev)%nat ->
  exists next,
    setIndex idx val prev = Some next /\
    List.length next = List.length prev /\
    nth idx next 0 = val /\
    (forall j, j <> idx -> nth j next 0 = nth j prev 0).
Proof.
  induction prev as [|a rest IH]; intros idx val Hidx; simpl in Hidx; [lia|].
  destruct idx as [|idx].
  - exists (val :: rest). repeat split; try reflexivity.
    intros [|j] Hj; [contradiction | reflexivity].
  - destruct (IH idx val ltac:(lia)) as (next & He & Hl & Hn & Ho).
    exists (a :: next). simpl. rewrite He.
    repeat split; try assumption; [now rewrite Hl|].
    intros [|j] Hj; [reflexivity|]. apply Ho. lia.
Qed.

Lemma setIndex_out_of_range (prev : list R) :
  forall idx val, (List.length prev <= idx)%nat -> setIndex idx val prev = None.
Proof.
  induction prev as [|a rest IH]; intros idx val Hidx;
    [destruct idx; reflexivity|].
  simpl in Hidx. destruct idx as [|idx]; [lia|].
  simpl. now rewrite IH by lia.
Qed.

(** X1.  A slider edit at an index inside the amplitude array yields a new
    state whose array has the same length, holds the new value at that index
    and the old values everywhere else; the waveform key and the container
    width are kept. *)
Theorem setAmp_in_range (idx : nat) (val : R) (s : State)
    (Hidx : (idx < List.length (amplitudes s))%nat) :
  exists s',
    setAmp idx val s = Some s' /\
    List.length (amplitudes s') = List.length (amplitudes s) /\
    nth idx (amplitudes s') 0 = val /\
    (forall j, j <> idx -> nth j (amplitudes s') 0 = nth j (amplitudes s) 0) /\
    waveType s' = waveType s /\
    containerWidth s' = containerWidth s.
Proof.
  destruct (setIndex_in_range (amplitudes s) idx val Hidx)
    as (next & He & Hl & Hn & Ho).
  exists (setAmplitudes next s). unfold setAmp. rewrite He.
  repeat split; assumption.
Qed.

Lemma setAmp_in_range_witness :
  (2 < List.length (amplitudes initialState))%nat /\
  exists s', setAmp 2 1.5 initialState = Some s' /\
             nth 2 (amplitudes s') 0 = 1.5.
Proof.
  assert (H : (2 < List.length (amplitudes initialState))%nat)
    by (simpl; lia).
  split; [exact H|].
  destruct (setAmp_in_range 2 1.5 initialState H)
    as (s' & He & _ & Hn & _).
  exists s'. split; [exact He | exact Hn].
Defined.

(** ** The state invariant *)

Lemma setIndex_Forall (P : R -> Prop) (prev : list R) :
  forall idx val next,
  Forall P prev -> P val -> setIndex idx val prev = Some next ->
  Forall P next.
Proof.
  induction prev as [|a rest IH]; intros idx val next Hall Hv He;
    [destruct idx; discriminate|].
  inversion Hall as [|? ? Ha Hrest]; subst.
  destruct idx as [|idx]; simpl in He.
  - injection He as <-. now constructor.
  - destruct (setIndex idx val rest) as [rest'|] eqn:Hr; [|discriminate].
    injection He as <-. constructor; [assumption|].
    now apply (IH idx val).
Qed.

Lemma setIndex_length (prev : list R) :
  forall idx val next,
  setIndex idx val prev = Some next -> List.length next = List.length prev.
Proof.
  induction prev as [|a rest IH]; intros idx val next He;
    [destruct idx; discriminate|].
  destruct idx as [|idx]; simpl in He.
  - now injection He as <-.
  - destruct (setIndex idx val rest) as [rest'|] eqn:Hr; [|discriminate].
    injection He as <-. simpl. f_equal. now apply (IH idx val).
Qed.

(** The stored ideal amplitude is inside the slider range whatever the
    coefficient is: the clamp comes before the rounding. *)
Lemma idealAmplitude_range (w : waveKey) (n : Z) :
  -2 <= idealAmplitude w n <= 2.
Proof.
  unfold idealAmplitude. cbv zeta.
  set (c := JS.min 2 (JS.max (-2) (coefficients w n))).
  assert (Hc : -2 <= c <= 2).
  { unfold c, JS.min, JS.max, Rmin, Rmax.
    destruct (Rle_dec (-2) (coefficients w n));
      match goal with |- context [Rle_dec 2 ?y] => destruct (Rle_dec 2 y) end;
      lra. }
  pose proof (floor_bounds (c * 1000 + / 2)) as [H1 H2].
  unfold JS.round.
  set (k := JS.floor (c * 1000 + / 2)) in *.
  assert (Hk : (-2000 <= k <= 2000)%Z).
  { split.
    - apply Z.lt_succ_r. apply lt_IZR. rewrite succ_IZR. lra.
    - apply Z.lt_succ_r. apply lt_IZR. rewrite succ_IZR. lra. }
  destruct Hk as [Hk1 Hk2]. apply IZR_le in Hk1, Hk2. lra.
Qed.

Lemma handle_stateInv (e : Event) (s s' : State) :
  sliderEvent e -> stateInv s -> handle e s = Some s' -> stateInv s'.
Proof.
  intros He (Hlen & Hall & Hw) Hh.
  destruct e as [idx val| | |key|[w|]]; simpl in Hh.
  - unfold setAmp in Hh.
    destruct (setIndex idx val (amplitudes s)) as [next|] eqn:Hn;
      [|discriminate].
    injection Hh as <-. destruct He as [_ Hv].
    split; [|split]; simpl.
    + rewrite (setIndex_length _ _ _ _ Hn). exact Hlen.
    + exact (setIndex_Forall _ _ _ _ _ Hall Hv Hn).
    + exact Hw.
  - injection Hh as <-. split; [reflexivity|]. split; [|exact Hw].
    simpl. repeat (apply Forall_cons; [lra|]). apply Forall_nil.
  - injection Hh as <-. split; [reflexivity|]. split; [|exact Hw].
    simpl. repeat (apply Forall_cons; [apply idealAmplitude_range|]).
    apply Forall_nil.
  - injection Hh as <-. split; [exact Hlen|]. split; [exact Hall | exact Hw].
  - injection Hh as <-. split; [exact Hlen|]. split; [exact Hall|].
    simpl. apply Rmin_r.
  - injection Hh as <-. split; [exact Hlen|]. split; [exact Hall | exact Hw].
Qed.

Lemma handle_progress (e : Event) (s : State) :
  sliderEvent e -> stateInv s -> exists s', handle e s = Some s'.
Proof.
  intros He (Hlen & _ & _).
  destruct e as [idx val| | |key|w]; simpl; try (eexists; reflexivity).
  destruct He as [Hi _].
  destruct (setIndex_in_range (amplitudes s) idx val) as (next & Hn & _);
    [lia|].
  exists (setAmplitudes next s). unfold setAmp. now rewrite Hn.
Qed.

Lemma initialState_inv : stateInv initialState.
Proof.
  split; [reflexivity|]. split; [|simpl; lra].
  simpl. repeat (apply Forall_cons; [lra|]). apply Forall_nil.
Qed.

(** X2.  Starting from the initial state, every sequence of input events
    whose slider events carry one of the five indices and a value in
    [-2, 2] is handled to the end, and the state it reaches has exactly five
    amplitudes, each in [-2, 2], and a container width of at most 960. *)
Theorem run_stateInv (es : list Event) (Hes : Forall sliderEvent es) :
  exists s, run es initialState = Some s /\ stateInv s.
Proof.
  pose proof initialState_inv as Hs. revert Hs.
  generalize initialState as s.
  induction es as [|e rest IH]; intros s Hs.
  - exists s. split; [reflexivity | exact Hs].
  - inversion Hes as [|? ? He Hrest]; subst.
    destruct (handle_progress e s He Hs) as [s1 H1].
    simpl. rewrite H1. apply (IH Hrest).
    exact (handle_stateInv e s s1 He Hs H1).
Qed.

Lemma run_stateInv_witness :
  let es := [SliderChange 0 1; IdealClick; SelectChange triangle;
             Resize (Some 1200); SliderChange 4 (-2); ResetClick] in
  Forall sliderEvent es /\
  exists s, run es initialState = Some s /\ stateInv s.
Proof.
  cbv zeta.
  assert (H : Forall sliderEvent
                [SliderChange 0 1; IdealClick; SelectChange triangle;
                 Resize (Some 1200); SliderChange 4 (-2); ResetClick]).
  { repeat (apply Forall_cons; [simpl; first [exact I | split; [lia | lra]]|]).
    apply Forall_nil. }
  split; [exact H|].
  exact (run_stateInv _ H).
Defined.

(** ** The sampling grid *)

Lemma X_VALUES_nth (i : nat) :
  (i <= 500)%nat -> nth i X_VALUES 0 = gridPoint i.
Proof.
  intros Hi. rewrite X_VALUES_grid.
  rewrite (nth_indep _ 0 (gridPoint 0))
    by (rewrite length_map, length_seq; lia).
  rewrite (map_nth gridPoint (seq 0 501) 0%nat i).
  now rewrite seq_nth by lia.
Qed.

Lemma gridPoint_0 : gridPoint 0 = 0.
Proof. unfold gridPoint. simpl INR. lra. Qed.

Lemma gridPoint_500 : gridPoint 500 = 2 * PI.
Proof.
  unfold gridPoint. rewrite INR_IZR_INZ. simpl Z.of_nat. field.
Qed.

Lemma gridPoint_step (i : nat) :
  gridPoint (S i) - gridPoint i = 2 * PI / 500.
Proof. unfold gridPoint. rewrite S_INR. field. Qed.

Lemma gridPoint_range (i : nat) :
  (i <= 500)%nat -> 0 <= gridPoint i <= 2 * PI.
Proof.
  intros Hi. pose proof PI_RGT_0 as Hpi. unfold gridPoint.
  assert (H0 : 0 <= INR i) by apply pos_INR.
  assert (H1 : INR i <= 500).
  { apply le_INR in Hi. rewrite (INR_IZR_INZ 500) in Hi. exact Hi. }
  split; nra.
Qed.

Lemma gridPoint_increasing (i : nat) : gridPoint i < gridPoint (S i).
Proof.
  pose proof (gridPoint_step i) as Hs. pose proof PI_RGT_0 as Hpi.
  assert (0 < 2 * PI / 500) by (unfold Rdiv; lra). lra.
Qed.

(** X3.  The shared grid has 501 points; the point at index i is
    (i/500) 2 pi, so the grid starts at 0, ends at 2 pi, stays inside
    [0, 2 pi] and is strictly increasing. *)
Theorem X_VALUES_uniform (i : nat) (Hi : (i <= 500)%nat) :
  List.length X_VALUES = 501%nat /\
  nth i X_VALUES 0 = (INR i / 500) * (2 * PI) /\
  0 <= nth i X_VALUES 0 <= 2 * PI /\
  nth 0 X_VALUES 0 = 0 /\
  nth 500 X_VALUES 0 = 2 * PI /\
  ((i < 500)%nat -> nth i X_VALUES 0 < nth (S i) X_VALUES 0).
Proof.
  split; [exact X_VALUES_length|].
  split; [now apply X_VALUES_nth|].
  split; [rewrite X_VALUES_nth by exact Hi; now apply gridPoint_range|].
  split; [rewrite X_VALUES_nth by lia; exact gridPoint_0|].
  split; [rewrite X_VALUES_nth by lia; exact gridPoint_500|].
  intros Hlt. rewrite !X_VALUES_nth by lia. apply gridPoint_increasing.
Qed.

Lemma X_VALUES_uniform_witness :
  (250 <= 500)%nat /\ nth 250 X_VALUES 0 = (INR 250 / 500) * (2 * PI).
Proof.
  assert (H : (250 <= 500)%nat) by lia.
  split; [exact H|].
  exact (proj1 (proj2 (X_VALUES_uniform 250 H))).
Defined.

(** ** The coordinate maps on the charts of the widget *)

Lemma toSVGX_monotone (width x1 x2 : R) :
  0 <= Graph.plotW width -> x1 <= x2 ->
  Graph.toSVGX width x1 <= Graph.toSVGX width x2.
Proof.
  intros Hw Hx. unfold Graph.toSVGX.
  pose proof PI_RGT_0 as Hpi.
  assert (Hi : 0 < / (2 * PI)) by (apply Rinv_0_lt_compat; lra).
  unfold Rdiv.
  assert (Hd : x1 * / (2 * PI) <= x2 * / (2 * PI)) by nra.
  nra.
Qed.

Lemma toSVGY_antitone (height yMin yMax y1 y2 : R) :
  yMin < yMax -> 0 <= Graph.plotH height -> y1 <= y2 ->
  Graph.toSVGY height yMin yMax y2 <= Graph.toSVGY height yMin yMax y1.
Proof.
  intros Hr Hh Hy. unfold Graph.toSVGY.
  assert (Hi : 0 < / (yMax - yMin)) by (apply Rinv_0_lt_compat; lra).
  unfold Rdiv.
  assert (Hd : (yMax - y2) * / (yMax - yMin) <= (yMax - y1) * / (yMax - yMin))
    by nra.
  nra.
Qed.

(** X4.  On a chart with a non-degenerate range and a plot area that is not
    negative in size, the column never decreases when x grows and the row
    never increases when y grows: the y axis points up. *)
Theorem coordinate_maps_monotone (width height yMin yMax a b : R)
    (Hrange : yMin < yMax) (Hw : 0 <= Graph.plotW width)
    (Hh : 0 <= Graph.plotH height) (Hab : a <= b) :
  Graph.toSVGX width a <= Graph.toSVGX width b /\
  Graph.toSVGY height yMin yMax b <= Graph.toSVGY height yMin yMax a.
Proof.
  split; [now apply toSVGX_monotone | now apply toSVGY_antitone].
Qed.

Lemma coordinate_maps_monotone_witness :
  (-2.2 < 2.2 /\ 0 <= Graph.plotW 800 /\ 0 <= Graph.plotH 220 /\ 0 <= 1) /\
  Graph.toSVGX 800 0 <= Graph.toSVGX 800 1 /\
  Graph.toSVGY 220 (-2.2) 2.2 1 <= Graph.toSVGY 220 (-2.2) 2.2 0.
Proof.
  assert (H1 : -2.2 < 2.2) by lra.
  assert (H2 : 0 <= Graph.plotW 800)
    by (unfold Graph.plotW, Graph.padding; simpl; lra).
  assert (H3 : 0 <= Graph.plotH 220)
    by (unfold Graph.plotH, Graph.padding; simpl; lra).
  assert (H4 : 0 <= 1) by lra.
  split; [repeat split; assumption|].
  exact (coordinate_maps_monotone 800 220 (-2.2) 2.2 0 1 H1 H2 H3 H4).
Defined.

Lemma graphWidth_min (s : State) : 400 <= graphWidth s.
Proof. unfold graphWidth, JS.max. apply Rmax_l. Qed.

Lemma graphWidth_max (s : State) :
  containerWidth s <= 960 -> graphWidth s <= 912.
Proof.
  intros Hw. unfold graphWidth, JS.max. apply Rmax_lub; lra.
Qed.

Lemma plotW_graphWidth (s : State) : 324 <= Graph.plotW (graphWidth s).
Proof.
  pose proof (graphWidth_min s). unfold Graph.plotW, Graph.padding. simpl. lra.
Qed.

Lemma plotH_graphHeight : Graph.plotH graphHeight = 136.
Proof. unfold Graph.plotH, graphHeight, Graph.padding. simpl. lra. Qed.

Lemma toSVGX_bounds (width x : R) :
  0 <= Graph.plotW width -> 0 <= x <= 2 * PI ->
  Graph.left Graph.padding <= Graph.toSVGX width x
    <= Graph.left Graph.padding + Graph.plotW width.
Proof.
  intros Hw Hx. unfold Graph.toSVGX. pose proof PI_RGT_0 as Hpi.
  set (t := x / (2 * PI)).
  assert (Ht : 0 <= t <= 1).
  { unfold t, Rdiv.
    assert (Hi : 0 < / (2 * PI)) by (apply Rinv_0_lt_compat; lra).
    assert (Hone : 2 * PI * / (2 * PI) = 1) by (apply Rinv_r; lra).
    split; nra. }
  split; nra.
Qed.

(** X5.  Whatever the container width is, the charts are at least 400 wide
    and 220 high, so their plot area is at least 324 by 136; a sample whose
    abscissa lies in [0, 2 pi] is drawn inside that area, whatever its
    ordinate.  Once the width has been measured the charts are at most 912
    wide. *)
Theorem chart_points_inside (s : State) (pt : Point)
    (Hx : 0 <= fst pt <= 2 * PI) :
  let width := graphWidth s in
  let p := Graph.dataPoint width graphHeight (-2.2) 2.2 pt in
  400 <= width /\
  324 <= Graph.plotW width /\
  Graph.plotH graphHeight = 136 /\
  52 <= fst p <= 52 + Graph.plotW width /\
  40 <= snd p <= 40 + 136 /\
  (forall w, graphWidth (measure (Some w) s) <= 912).
Proof.
  cbv zeta.
  pose proof (plotW_graphWidth s) as Hw.
  split; [apply graphWidth_min|]. split; [exact Hw|].
  split; [exact plotH_graphHeight|].
  split.
  - unfold Graph.dataPoint. cbv zeta. simpl fst.
    apply (toSVGX_bounds (graphWidth s) (fst pt)); [lra | exact Hx].
  - split.
    + unfold Graph.dataPoint. cbv zeta. simpl snd.
      rewrite <- plotH_graphHeight.
      apply (toSVGY_bounds graphHeight (-2.2) 2.2);
        [lra | rewrite plotH_graphHeight; lra | apply clamp_cases; lra].
    + intros w. apply graphWidth_max. simpl. apply Rmin_r.
Qed.

Lemma chart_points_inside_witness :
  0 <= fst (PI, 5) <= 2 * PI /\
  40 <= snd (Graph.dataPoint (graphWidth initialState) graphHeight
               (-2.2) 2.2 (PI, 5)) <= 40 + 136.
Proof.
  assert (H : 0 <= fst (PI, 5) <= 2 * PI)
    by (simpl; pose proof PI_RGT_0; lra).
  split; [exact H|].
  exact (proj1 (proj2 (proj2 (proj2 (proj2
           (chart_points_inside initialState (PI, 5) H)))))).
Defined.

(** ** Data lines *)

Lemma pathCmds_tail (width height yMin yMax : R) (data : list Point) :
  forall i,
  mapi_from (fun pt i =>
               let '(sx, sy) := Graph.dataPoint width height yMin yMax pt in
               if Nat.eqb i 0 then Graph.M sx sy else Graph.L sx sy)
            (S i) data =
  map (fun pt =>
         Graph.L (fst (Graph.dataPoint width height yMin yMax pt))
                 (snd (Graph.dataPoint width height yMin yMax pt))) data.
Proof.
  induction data as [|pt rest IH]; intros i; [reflexivity|].
  cbn [mapi_from map]. rewrite IH.
  destruct (Graph.dataPoint width height yMin yMax pt). reflexivity.
Qed.

(** X6.  The path of a dataset starts with one move to the first mapped
    sample and continues with a line to each later sample, in order: as
    many commands as samples.  A dataset without samples yields no path at
    all, every other dataset yields one. *)
Theorem pathCmds_shape (width height yMin yMax : R)
    (pt : Point) (rest : list Point) (ds : Dataset) :
  let dp := Graph.dataPoint width height yMin yMax in
  Graph.pathCmds width height yMin yMax [] = [] /\
  Graph.pathCmds width height yMin yMax (pt :: rest) =
    Graph.M (fst (dp pt)) (snd (dp pt))
    :: map (fun q => Graph.L (fst (dp q)) (snd (dp q))) rest /\
  List.length (Graph.pathCmds width height yMin yMax (pt :: rest)) =
    List.length (pt :: rest) /\
  (Graph.dataLines width height yMin yMax [ds] = [None]
   <-> ds_data ds = []).
Proof.
  cbv zeta.
  assert (Hshape :
    Graph.pathCmds width height yMin yMax (pt :: rest) =
    Graph.M (fst (Graph.dataPoint width height yMin yMax pt))
            (snd (Graph.dataPoint width height yMin yMax pt))
    :: map (fun q =>
              Graph.L (fst (Graph.dataPoint width height yMin yMax q))
                      (snd (Graph.dataPoint width height yMin yMax q))) rest).
  { unfold Graph.pathCmds, mapi. cbn [mapi_from]. rewrite pathCmds_tail.
    destruct (Graph.dataPoint width height yMin yMax pt). reflexivity. }
  split; [reflexivity|]. split; [exact Hshape|].
  split; [rewrite Hshape; simpl; now rewrite length_map|].
  unfold Graph.dataLines. simpl.
  destruct (ds_data ds); split; intros H; try reflexivity; discriminate.
Qed.

(** ** Magnitude of the samples *)

Lemma sin_abs_le_1 (x : R) : Rabs (sin x) <= 1.
Proof. apply Rabs_le. pose proof (SIN_bound x). lra. Qed.

Lemma harmonic_abs_le (amp x : R) : Rabs (amp * sin x) <= Rabs amp.
Proof.
  rewrite Rabs_mult. pose proof (sin_abs_le_1 x). pose proof (Rabs_pos amp).
  pose proof (Rabs_pos (sin x)). nra.
Qed.





Lemma individualDatasets_points (amps : list R) (b : R) :
  Forall (fun a => Rabs a <= b) amps ->
  forall i,
  Forall (fun d => Forall (fun pt => Rabs (snd pt) <= b) (ds_data d))
    (filterBoolean
       (mapi_from (fun amp i =>
                     if JS.ltb (JS.abs amp) 0.001 then None
                     else
                       let n := (i + 1)%nat in
                       Some {| ds_color := nth_error COLORS i;
                               ds_width := Some 2;
                               ds_opacity := Some 0.9;
                               ds_dash := None;
                               ds_data :=
                                 map (fun x => (x, amp * sin (INR n * x)))
                                     X_VALUES |}) i amps)).
Proof.
  induction 1 as [|a rest Ha _ IH]; intros i; cbn [mapi_from filterBoolean].
  - constructor.
  - destruct (JS.ltb (JS.abs a) 0.001); cbn [filterBoolean]; [apply IH|].
    constructor; [|apply IH].
    cbv zeta. cbn [ds_data]. apply Forall_map. apply Forall_forall.
    intros x _. simpl. pose proof (harmonic_abs_le a (INR (i + 1) * x)). lra.
Qed.

(** X8.  With every amplitude in [-2, 2], each sample of each individual
    harmonic curve has magnitude at most 2, so the clamp to the view range
    [-2.2, 2.2] leaves it as it is: a single harmonic is never cut off. *)
Theorem individual_never_clamped (amps : list R)
    (Hall : Forall (fun a => Rabs a <= 2) amps) :
  Forall (fun d =>
            Forall (fun pt =>
                      Rabs (snd pt) <= 2 /\
                      JS.max (-2.2) (JS.min 2.2 (snd pt)) = snd pt)
                   (ds_data d))
         (individualDatasets amps).
Proof.
  pose proof (individualDatasets_points amps 2 Hall 0) as H.
  eapply Forall_impl; [|exact H]. intros d Hd. simpl in Hd.
  eapply Forall_impl; [|exact Hd]. intros pt Hpt. simpl in Hpt.
  split; [exact Hpt|].
  apply clamp_cases; [lra|].
  revert Hpt. unfold Rabs. destruct (Rcase_abs (snd pt)); lra.
Qed.

Lemma Rabs_le_2_of_range (a : R) : -2 <= a <= 2 -> Rabs a <= 2.
Proof. intros H. apply Rabs_le. exact H. Qed.

Lemma individual_never_clamped_witness :
  Forall (fun a => Rabs a <= 2) [2; 0; -1.5; 0; 0] /\
  Forall (fun d =>
            Forall (fun pt =>
                      Rabs (snd pt) <= 2 /\
                      JS.max (-2.2) (JS.min 2.2 (snd pt)) = snd pt)
                   (ds_data d))
         (individualDatasets [2; 0; -1.5; 0; 0]).
Proof.
  assert (H : Forall (fun a => Rabs a <= 2) [2; 0; -1.5; 0; 0]).
  { repeat (apply Forall_cons; [apply Rabs_le_2_of_range; lra|]).
    apply Forall_nil. }
  split; [exact H|].
  exact (individual_never_clamped _ H).
Defined.

(** ** The target curve *)

Lemma fn_period_k (w : waveKey) (x : R) (k : Z) :
  fn w (x + 2 * PI * IZR k) = fn w x.
Proof.
  assert (Hp : phase (x + 2 * PI * IZR k) = phase x)
    by (apply (phase_congruent x _ k); reflexivity).
  destruct w; unfold fn; cbv zeta; now rewrite Hp.
Qed.

(** X9.  The target curve has 501 samples, (x, fn(x)) over the shared grid;
    every value lies in [-1, 1], so the clamp to [-2.2, 2.2] never changes
    it; the last sample, at 2 pi, has the value of the first, at 0; and the
    comparison chart draws this curve and the sum curve, in that order. *)
Theorem targetData_spec (w : waveKey) :
  List.length (targetData w) = 501%nat /\
  targetData w = map (fun i => (gridPoint i, fn w (gridPoint i))) (seq 0 501) /\
  Forall (fun pt => -1 <= snd pt <= 1 /\
                    JS.max (-2.2) (JS.min 2.2 (snd pt)) = snd pt)
         (targetData w) /\
  snd (nth 500 (targetData w) (0, 0)) = snd (nth 0 (targetData w) (0, 0)) /\
  (forall amps,
     map ds_data (compareDatasets w amps) = [targetData w; sumData amps]).
Proof.
  assert (Hmap : targetData w =
                 map (fun i => (gridPoint i, fn w (gridPoint i))) (seq 0 501)).
  { unfold targetData. rewrite X_VALUES_grid, map_map. reflexivity. }
  split; [rewrite Hmap, length_map, length_seq; reflexivity|].
  split; [exact Hmap|].
  split.
  { unfold targetData. apply Forall_map. apply Forall_forall. intros x _.
    simpl. pose proof (fn_range w x) as Hr.
    split; [exact Hr|]. apply clamp_cases; lra. }
  split; [|intros amps; reflexivity].
  - rewrite Hmap.
    set (f := fun i => (gridPoint i, fn w (gridPoint i))).
    rewrite (nth_indep _ (0, 0) (f 0%nat))
      by (rewrite length_map, length_seq; lia).
    rewrite (nth_indep (map f (seq 0 501)) (0, 0) (f 0%nat))
      by (rewrite length_map, length_seq; lia).
    rewrite !(map_nth f (seq 0 501) 0%nat).
    rewrite !seq_nth by lia. unfold f. simpl snd. simpl Nat.add.
    rewrite gridPoint_500, gridPoint_0.
    replace (2 * PI) with (0 + 2 * PI * IZR 1) by (simpl; ring).
    apply fn_period_k.
Qed.

(** ** The start of the sum curve *)

Lemma forEachAdd_at_0 (amps : list R) :
  forall i y, forEachAdd 0 i amps y = y.
Proof.
  induction amps as [|a rest IH]; intros i y; simpl; [reflexivity|].
  rewrite IH, Rmult_0_r, sin_0. ring.
Qed.

(** X10.  Whatever the amplitudes are, and however many, the first sample
    of the sum curve is the point (0, 0). *)
Theorem sumData_nodes (amps : list R) :
  nth 0 (sumData amps) (0, 0) = (0, 0) /\
  hd_error (sumData amps) = Some (0, 0).
Proof.
  assert (H : sumData amps =
              (0, 0) :: map (fun x => (x, forEachAdd x 0 amps 0))
                            (map gridPoint (seq 1 500))).
  { unfold sumData. rewrite X_VALUES_grid.
    change (seq 0 501) with (0%nat :: seq 1 500). cbn [map].
    rewrite gridPoint_0, forEachAdd_at_0. reflexivity. }
  rewrite H. split; reflexivity.
Qed.

(** ** The ideal coefficients of the three waveforms *)

Lemma idealAmplitude_value (w : waveKey) (n k : Z) :
  (1 <= n)%Z ->
  IZR k - / 2 <= coefficients w n * 1000 < IZR k + / 2 ->
  idealAmplitude w n = IZR k / 1000.
Proof.
  intros Hn Hk. rewrite idealAmplitude_unclamped by exact Hn.
  now rewrite (round_eq _ k Hk).
Qed.

Lemma sawtooth_coefficient_inv (n : Z) :
  (1 <= n)%Z ->
  coefficients sawtooth n =
  (if Z.even (n + 1) then 1 else -1) * (2 * / PI * / IZR n).
Proof.
  intros Hn. unfold coefficients. rewrite pow_m1_parity.
  pose proof PI_RGT_0. assert (IZR n <> 0) by (apply not_0_IZR; lia).
  destruct (Z.even (n + 1)); field; split; lra.
Qed.

Lemma triangle_coefficient_inv (n : Z) :
  (1 <= n)%Z -> Z.even n = false ->
  coefficients triangle n =
  (if Z.even ((n - 1) / 2) then 1 else -1)
  * (8 * (/ PI * / PI) * (/ IZR n * / IZR n)).
Proof.
  intros Hn Ho. unfold coefficients. rewrite rem2_nonneg, Ho by lia.
  simpl Z.eqb. cbv iota zeta. rewrite pow_m1_parity.
  pose proof PI_RGT_0. assert (IZR n <> 0) by (apply not_0_IZR; lia).
  destruct (Z.even ((n - 1) / 2)); field; split; lra.
Qed.

Lemma inv_PI_sqr_bounds : 0.101314 < / PI * / PI < 0.101328.
Proof. pose proof inv_PI_bounds as [H1 H2]. split; nra. Qed.

Lemma ideal_square_amplitudes :
  map (idealAmplitude square) [1; 2; 3; 4; 5]%Z =
  [1.273; 0; 0.424; 0; 0.255].
Proof.
  pose proof inv_PI_bounds as [Hp1 Hp2]. simpl map.
  rewrite (idealAmplitude_square_odd 1 1273) by (first [lia | reflexivity | lra]).
  rewrite (idealAmplitude_square_even 2) by (first [lia | reflexivity]).
  rewrite (idealAmplitude_square_odd 3 424) by (first [lia | reflexivity | lra]).
  rewrite (idealAmplitude_square_even 4) by (first [lia | reflexivity]).
  rewrite (idealAmplitude_square_odd 5 255) by (first [lia | reflexivity | lra]).
  repeat f_equal; lra.
Qed.

Ltac ideal_saw k :=
  match goal with
  | |- context [idealAmplitude sawtooth ?n] =>
      rewrite (idealAmplitude_value sawtooth n k)
        by (first [ lia
                  | rewrite sawtooth_coefficient_inv by lia;
                    simpl Z.even; cbv iota; lra ])
  end.

Lemma ideal_sawtooth_amplitudes :
  map (idealAmplitude sawtooth) [1; 2; 3; 4; 5]%Z =
  [0.637; -0.318; 0.212; -0.159; 0.127].
Proof.
  pose proof inv_PI_bounds as [Hp1 Hp2]. cbn [map].
  ideal_saw 637%Z. ideal_saw (-318)%Z. ideal_saw 212%Z.
  ideal_saw (-159)%Z. ideal_saw 127%Z.
  repeat f_equal; lra.
Qed.

Lemma ideal_triangle_amplitudes :
  map (idealAmplitude triangle) [1; 2; 3; 4; 5]%Z =
  [0.811; 0; -0.09; 0; 0.032].
Proof.
  pose proof inv_PI_sqr_bounds as [Hp1 Hp2]. cbn [map].
  rewrite (idealAmplitude_value triangle 1 811)
    by (first [ lia | rewrite triangle_coefficient_inv by (first [lia | reflexivity]);
                      simpl Z.even; cbv iota; lra ]).
  rewrite (idealAmplitude_value triangle 2 0)
    by (first [ lia | rewrite triangle_coefficient_even by (first [lia | reflexivity]);
                      lra ]).
  rewrite (idealAmplitude_value triangle 3 (-90))
    by (first [ lia | rewrite triangle_coefficient_inv by (first [lia | reflexivity]);
                      simpl Z.even; cbv iota; lra ]).
  rewrite (idealAmplitude_value triangle 4 0)
    by (first [ lia | rewrite triangle_coefficient_even by (first [lia | reflexivity]);
                      lra ]).
  rewrite (idealAmplitude_value triangle 5 32)
    by (first [ lia | rewrite triangle_coefficient_inv by (first [lia | reflexivity]);
                      simpl Z.even; cbv iota; lra ]).
  repeat f_equal; lra.
Qed.

Lemma showIdeal_amplitudes (key : waveKey) (s : State) :
  amplitudes (showIdeal (setWaveType key s)) =
  match key with
  | square => [1.273; 0; 0.424; 0; 0.255]
  | sawtooth => [0.637; -0.318; 0.212; -0.159; 0.127]
  | triangle => [0.811; 0; -0.09; 0; 0.032]
  end.
Proof.
  unfold showIdeal, setAmplitudes, setWaveType. cbn [amplitudes waveType].
  destruct key.
  - exact ideal_square_amplitudes.
  - exact ideal_sawtooth_amplitudes.
  - exact ideal_triangle_amplitudes.
Qed.

Ltac derived_eval :=
  unfold individualDatasets, individualLegend, activeCount, eqParts, mapi;
  cbn [mapi_from filter]; js_abs; js_cmp; cbn [filterBoolean filter].

(** X13.  After the ideal-coefficients action the amplitudes are
    [0.637, -0.318, 0.212, -0.159, 0.127] for the sawtooth and
    [0.811, 0, -0.09, 0, 0.032] for the triangle; for each of the three
    waveforms the active count is the number of drawn harmonics, of legend
    entries and of equation terms: 3 for the square, 5 for the sawtooth,
    3 for the triangle. *)
Theorem showIdeal_displays (key : waveKey) (s : State) :
  let amps := amplitudes (showIdeal (setWaveType key s)) in
  amps =
    match key with
    | square => [1.273; 0; 0.424; 0; 0.255]
    | sawtooth => [0.637; -0.318; 0.212; -0.159; 0.127]
    | triangle => [0.811; 0; -0.09; 0; 0.032]
    end /\
  activeCount amps =
    match key with square => 3 | sawtooth => 5 | triangle => 3 end%nat /\
  List.length (individualDatasets amps) = activeCount amps /\
  List.length (individualLegend amps) = activeCount amps /\
  List.length (eqParts amps) = activeCount amps.
Proof.
  cbv zeta. rewrite showIdeal_amplitudes.
  split; [reflexivity|].
  destruct key; derived_eval; repeat split; reflexivity.
Qed.

(** ** The legend, the chart and the equation *)

Lemma legend_colors_from (amps : list R) :
  (forall a, In a amps -> JS.abs a <> 0.001) ->
  forall i,
  map li_color
    (filterBoolean
       (mapi_from (fun amp i =>
                     if JS.gtb (JS.abs amp) 0.001
                     then Some {| li_color := nth_error COLORS i;
                                  li_label := "n=" ++ Fmt.ofNat (i + 1) |}
                     else None) i amps)) =
  map ds_color
    (filterBoolean
       (mapi_from (fun amp i =>
                     if JS.ltb (JS.abs amp) 0.001 then None
                     else
                       let n := (i + 1)%nat in
                       Some {| ds_color := nth_error COLORS i;
                               ds_width := Some 2;
                               ds_opacity := Some 0.9;
                               ds_dash := None;
                               ds_data :=
                                 map (fun x => (x, amp * sin (INR n * x)))
                                     X_VALUES |}) i amps)).
Proof.
  induction amps as [|a rest IH]; intros Hne i; [reflexivity|].
  assert (Ha : JS.abs a <> 0.001) by (apply Hne; now left).
  assert (Hrest : forall b, In b rest -> JS.abs b <> 0.001)
    by (intros b Hb; apply Hne; now right).
  cbn [mapi_from]. unfold JS.gtb.
  destruct (Rlt_dec (JS.abs a) 0.001) as [Hlt|Hge].
  - rewrite (ltb_true (JS.abs a)) by exact Hlt.
    rewrite (ltb_false 0.001) by lra.
    cbn [filterBoolean]. now apply IH.
  - rewrite (ltb_false (JS.abs a)) by lra.
    rewrite (ltb_true 0.001) by lra.
    cbn [filterBoolean map li_color ds_color]. f_equal. now apply IH.
Qed.

(** X14.  When no amplitude has magnitude exactly 0.001, the legend lists
    the colours of the drawn harmonic curves, in the same order, and the
    active count is their number. *)
Theorem legend_matches_chart (amps : list R)
    (Hne : forall a, In a amps -> JS.abs a <> 0.001) :
  map li_color (individualLegend amps) =
    map ds_color (individualDatasets amps) /\
  List.length (individualDatasets amps) = activeCount amps /\
  List.length (individualLegend amps) = activeCount amps.
Proof.
  split; [now apply legend_colors_from|].
  split; [now apply datasets_length_from | apply legend_length_from].
Qed.

Lemma legend_matches_chart_witness :
  (forall a, In a [1; 0; -0.5; 0; 0] -> JS.abs a <> 0.001) /\
  map li_color (individualLegend [1; 0; -0.5; 0; 0]) =
    map ds_color (individualDatasets [1; 0; -0.5; 0; 0]).
Proof.
  assert (H : forall a, In a [1; 0; -0.5; 0; 0] -> JS.abs a <> 0.001).
  { intros a Ha. simpl in Ha. unfold JS.abs, Rabs.
    destruct (Rcase_abs a);
      repeat (destruct Ha as [Ha | Ha]; [lra|]); contradiction. }
  split; [exact H|].
  exact (proj1 (legend_matches_chart _ H)).
Defined.

Lemma eqParts_length_from (amps : list R) :
  forall i,
  List.length
    (filterBoolean
       (mapi_from (fun amp i =>
                     if JS.ltb (JS.abs amp) 0.001 then None
                     else
                       let n := (i + 1)%nat in
                       let coeff :=
                         if JS.eqb (JS.abs amp) 1 then ""%string
                         else Fmt.toFixed (JS.abs amp) 2 in
                       let sign := if JS.ltb amp 0 then "−" else "+" in
                       let sinPart :=
                         if Nat.eqb n 1 then "sin(x)"
                         else "sin(" ++ Fmt.ofNat n ++ "x)" in
                       Some {| sign := sign; coeff := coeff;
                               sinPart := sinPart |})%string i amps)) =
  List.length
    (filter (fun a => negb (JS.ltb (JS.abs a) 0.001)) amps).
Proof.
  induction amps as [|a rest IH]; intros i; [reflexivity|].
  cbn [mapi_from filter].
  destruct (JS.ltb (JS.abs a) 0.001); cbn [filterBoolean negb List.length];
    now rewrite IH.
Qed.

Lemma datasets_length_filter (amps : list R) :
  forall i,
  List.length
    (filterBoolean
       (mapi_from (fun amp i =>
                     if JS.ltb (JS.abs amp) 0.001 then None
                     else
                       let n := (i + 1)%nat in
                       Some {| ds_color := nth_error COLORS i;
                               ds_width := Some 2;
                               ds_opacity := Some 0.9;
                               ds_dash := None;
                               ds_data :=
                                 map (fun x => (x, amp * sin (INR n * x)))
                                     X_VALUES |}) i amps)) =
  List.length
    (filter (fun a => negb (JS.ltb (JS.abs a) 0.001)) amps).
Proof.
  induction amps as [|a rest IH]; intros i; [reflexivity|].
  cbn [mapi_from filter].
  destruct (JS.ltb (JS.abs a) 0.001); cbn [filterBoolean negb List.length];
    now rewrite IH.
Qed.

Lemma filter_none (A : Type) (f : A -> bool) (l : list A) :
  Forall (fun a => f a = false) l -> filter f l = [].
Proof.
  induction 1 as [|a rest Ha _ IH]; [reflexivity|].
  simpl. now rewrite Ha.
Qed.

Lemma length_zero_nil (A : Type) (l : list A) : List.length l = 0%nat -> l = [].
Proof. destruct l; [reflexivity | discriminate]. Qed.

(** X15.  At every amplitude array the equation has exactly one term per
    drawn harmonic curve, and at least as many as the active count.  When
    every amplitude is below 0.001 in magnitude, nothing is drawn, the
    legend is empty, the count is 0 and the equation reads "f(x) = 0". *)
Theorem equation_matches_chart (amps : list R) :
  List.length (eqParts amps) = List.length (individualDatasets amps) /\
  (activeCount amps <= List.length (eqParts amps))%nat /\
  (Forall (fun a => JS.abs a < 0.001) amps ->
   individualDatasets amps = [] /\ individualLegend amps = [] /\
   activeCount amps = 0%nat /\ equationStr amps = "f(x) = 0"%string).
Proof.
  assert (He : List.length (eqParts amps) =
               List.length (filter (fun a => negb (JS.ltb (JS.abs a) 0.001)) amps))
    by apply eqParts_length_from.
  assert (Hd : List.length (individualDatasets amps) =
               List.length (filter (fun a => negb (JS.ltb (JS.abs a) 0.001)) amps))
    by apply datasets_length_filter.
  split; [now rewrite He, Hd|].
  split.
  { rewrite He. unfold activeCount. clear He Hd.
    induction amps as [|a rest IH]; [apply Nat.le_refl|].
    cbn [filter].
    destruct (JS.gtb (JS.abs a) 0.001) eqn:Hg.
    - apply gtb_iff in Hg. rewrite (ltb_false (JS.abs a)) by lra.
      cbn [negb List.length]. lia.
    - destruct (negb (JS.ltb (JS.abs a) 0.001)); cbn [List.length]; lia. }
  intros Hsmall.
  assert (Hf : filter (fun a => negb (JS.ltb (JS.abs a) 0.001)) amps = []).
  { apply filter_none. eapply Forall_impl; [|exact Hsmall].
    intros a Ha. simpl in Ha. now rewrite ltb_true by exact Ha. }
  assert (Hg : filter (fun a => JS.gtb (JS.abs a) 0.001) amps = []).
  { apply filter_none. eapply Forall_impl; [|exact Hsmall].
    intros a Ha. simpl in Ha. unfold JS.gtb. now rewrite ltb_false by lra. }
  assert (Hparts : eqParts amps = []).
  { apply length_zero_nil. now rewrite He, Hf. }
  split; [apply length_zero_nil; now rewrite Hd, Hf|].
  split; [apply length_zero_nil; rewrite legend_count_agree;
          unfold activeCount; now rewrite Hg|].
  split; [unfold activeCount; now rewrite Hg|].
  unfold equationStr. now rewrite Hparts.
Qed.

Lemma equation_matches_chart_witness :
  Forall (fun a => JS.abs a < 0.001) [0.0005; 0; -0.0009] /\
  equationStr [0.0005; 0; -0.0009] = "f(x) = 0"%string.
Proof.
  assert (H : Forall (fun a => JS.abs a < 0.001) [0.0005; 0; -0.0009]).
  { repeat (apply Forall_cons;
            [unfold JS.abs, Rabs;
             match goal with |- context [Rcase_abs ?a] =>
               destruct (Rcase_abs a) end; lra|]).
    apply Forall_nil. }
  split; [exact H|].
  exact (proj2 (proj2 (proj2
           (proj2 (proj2 (equation_matches_chart _)) H)))).
Defined.

(** ** The slider readout *)

Lemma string_length_append (s1 s2 : string) :
  String.length (s1 ++ s2) = (String.length s1 + String.length s2)%nat.
Proof. induction s1 as [|c s1 IH]; simpl; [reflexivity | now rewrite IH]. Qed.

Lemma fixedDigits_2_length_check :
  forallb (fun n => Nat.eqb (String.length (Fmt.fixedDigits (Z.of_nat n) 2)) 4)
          (seq 0 1000) = true.
Proof. vm_compute. reflexivity. Qed.

Lemma fixedDigits_2_length (n : Z) :
  (0 <= n < 1000)%Z -> String.length (Fmt.fixedDigits n 2) = 4%nat.
Proof.
  intros Hn. pose proof fixedDigits_2_length_check as Hc.
  rewrite forallb_forall in Hc.
  specialize (Hc (Z.to_nat n)). rewrite Z2Nat.id in Hc by lia.
  apply Nat.eqb_eq. apply Hc. apply in_seq. lia.
Qed.

(** X18.  For an amplitude in the slider range [-2, 2] the readout is always
    five characters wide: a space or a minus sign, then the magnitude
    rounded to two decimals (a tie going up), which is at most 2.00.  A
    negative amplitude keeps its minus sign even when it rounds to 0.00. *)
Theorem readout_width (amp : R) (Hamp : -2 <= amp <= 2) :
  let n := JS.floor (Rabs amp * 100 + / 2) in
  (0 <= n <= 200)%Z /\
  readout amp =
    ((if JS.leb 0 amp then " " else "-") ++ Fmt.fixedDigits n 2)%string /\
  String.length (readout amp) = 5%nat.
Proof.
  cbv zeta.
  assert (Ha : 0 <= Rabs amp <= 2).
  { split; [apply Rabs_pos | apply Rabs_le; lra]. }
  pose proof (floor_bounds (Rabs amp * 100 + / 2)) as [Hf1 Hf2].
  set (n := JS.floor (Rabs amp * 100 + / 2)) in *.
  assert (Hn : (0 <= n <= 200)%Z).
  { split.
    - apply Z.lt_succ_r. apply lt_IZR. rewrite succ_IZR. lra.
    - apply Z.lt_succ_r. apply lt_IZR. rewrite succ_IZR. lra. }
  assert (Hr : readout amp =
    ((if JS.leb 0 amp then " " else "-") ++ Fmt.fixedDigits n 2)%string).
  { unfold readout, Fmt.toFixed. cbv zeta. unfold JS.leb, JS.ltb.
    destruct (Rle_dec 0 amp) as [Hp|Hp]; destruct (Rlt_dec amp 0) as [Hq|Hq];
      try lra.
    - simpl pow. replace (amp * (10 * (10 * 1))) with (Rabs amp * 100)
        by (rewrite Rabs_pos_eq by lra; ring).
      reflexivity.
    - simpl pow. replace (- amp * (10 * (10 * 1))) with (Rabs amp * 100)
        by (rewrite Rabs_left by lra; ring).
      reflexivity. }
  split; [exact Hn|]. split; [exact Hr|].
  rewrite Hr, string_length_append, fixedDigits_2_length by lia.
  destruct (JS.leb 0 amp); reflexivity.
Qed.

Lemma readout_width_witness :
  -2 <= -0.001 <= 2 /\ String.length (readout (-0.001)) = 5%nat.
Proof.
  assert (H : -2 <= -0.001 <= 2) by lra.
  split; [exact H|].
  exact (proj2 (proj2 (readout_width (-0.001) H))).
Defined.

(** ** The two significance tests, index by index *)









(** ** No reachable amplitude sits on the threshold *)









(** ** The equation as a sum of terms *)







(** ** Periods in binary64 *)




